(** * Book character tracker: name resolution, chapter processing, merge, chapter view

    A shallow embedding of
      - [CharacterExtractionService] (services/characterExtraction.ts):
        [normalizeCharacterName], [findSimilarCharacterNames],
        [processGeminiResponse], [updateExistingCharacter],
        [createNewCharacter], [processRelationships];
      - [CharacterService] (db/services.ts): [saveCharacters],
        [getCharactersForBook], [getCharactersUpToChapter],
        [findCharacterByName], [mergeCharacters];
      - the chapter filters of CharacterDetail.tsx and [prepareGraphData] of
        the character map;
      - the save step of [handleAnalyzeChapter] and the tap handler in front of
        [handleCharacterMerge].

    Conventions.
      - A JavaScript string is a [string]; a character of it stands for one
        UTF-16 code unit in the range 0..255.
      - A JavaScript [number] holding a chapter number or a counter is a [Z].
      - The Dexie table [db.characters] (primary key [id], index [bookId]) is
        a [gmap string Character]; a query returns its rows in primary-key
        order.
      - Asynchronous methods run to completion one after the other; they are
        functions in a state-and-exception monad over the tables. *)

From Stdlib Require Import ZArith Ascii String List Bool Lia.
From stdpp Require Import base option list gmap strings sorting.

Local Open Scope string_scope.
Local Open Scope Z_scope.

(** ** JavaScript string primitives *)

Module JS.

(** [\s] of a regular expression, and the characters [trim] removes. *)
Definition isWhiteSpace (a : ascii) : bool :=
  let n := N_of_ascii a in
  ((9 <=? n) && (n <=? 13) || (n =? 32) || (n =? 160))%N.

(** One code unit of [String.prototype.toLowerCase]. *)
Definition toLowerCaseChar (a : ascii) : ascii :=
  let n := N_of_ascii a in
  if ((65 <=? n) && (n <=? 90))%N then ascii_of_N (n + 32)
  else if ((192 <=? n) && (n <=? 222) && negb (n =? 215))%N
       then ascii_of_N (n + 32)
  else a.

Fixpoint toLowerCase (s : string) : string :=
  match s with
  | EmptyString => EmptyString
  | String a s' => String (toLowerCaseChar a) (toLowerCase s')
  end.

(** Equality of two code units under the [i] flag. The literals of the
    patterns below are ASCII letters, and a code unit matches an ASCII
    letter exactly when it is that letter in either case (a code unit of
    128 or more is never identified with one below 128). *)
Definition eqCharIgnoreCase (a b : ascii) : bool :=
  Ascii.eqb (toLowerCaseChar a) (toLowerCaseChar b).

Fixpoint trimStart (s : string) : string :=
  match s with
  | EmptyString => EmptyString
  | String a s' => if isWhiteSpace a then trimStart s' else s
  end.

Fixpoint trimEnd (s : string) : string :=
  match s with
  | EmptyString => EmptyString
  | String a s' =>
      match trimEnd s' with
      | EmptyString => if isWhiteSpace a then EmptyString else String a EmptyString
      | t => String a t
      end
  end.

Definition trim (s : string) : string := trimEnd (trimStart s).

(** Prepend a code unit to the first piece of a split in progress. *)
Definition consHead (a : ascii) (ps : list string) : list string :=
  match ps with
  | [] => [String a EmptyString]
  | p :: ps' => String a p :: ps'
  end.

(** [s.split(/\s+/)]: the pieces between maximal runs of white space.
    [inSep] records that the previous code unit belonged to a separator. *)
Fixpoint splitWsFrom (inSep : bool) (s : string) : list string :=
  match s with
  | EmptyString => [EmptyString]
  | String a s' =>
      if isWhiteSpace a
      then if inSep then splitWsFrom true s'
           else EmptyString :: splitWsFrom true s'
      else consHead a (splitWsFrom false s')
  end.

Definition splitWs (s : string) : list string := splitWsFrom false s.

(** [s.split(' ')]. *)
Fixpoint splitSpace (s : string) : list string :=
  match s with
  | EmptyString => [EmptyString]
  | String a s' =>
      if Ascii.eqb a " "%char then EmptyString :: splitSpace s'
      else consHead a (splitSpace s')
  end.

(** [parts.join(' ')]. *)
Fixpoint joinSpace (parts : list string) : string :=
  match parts with
  | [] => EmptyString
  | [p] => p
  | p :: ps => p ++ String " "%char (joinSpace ps)
  end.

Definition len (s : string) : Z := Z.of_nat (String.length s).

(** [s[0]]; [None] is [undefined]. *)
Definition charAt0 (s : string) : option ascii :=
  match s with
  | EmptyString => None
  | String a _ => Some a
  end.

(** [full.startsWith(short)]. *)
Fixpoint startsWith (full short : string) : bool :=
  match short, full with
  | EmptyString, _ => true
  | String b short', String a full' => Ascii.eqb a b && startsWith full' short'
  | String _ _, EmptyString => false
  end.

(** [s.includes(' ')]. *)
Fixpoint includesSpace (s : string) : bool :=
  match s with
  | EmptyString => false
  | String a s' => Ascii.eqb a " "%char || includesSpace s'
  end.

(** A literal of a case-insensitive pattern matched at the head of [s]:
    the rest of [s] when it matches. *)
Fixpoint matchLiteralIgnoreCase (lit s : string) : option string :=
  match lit, s with
  | EmptyString, _ => Some s
  | String b lit', String a s' =>
      if eqCharIgnoreCase a b then matchLiteralIgnoreCase lit' s' else None
  | String _ _, EmptyString => None
  end.

(** The first alternative of [(l1|l2|...)] after which [k] succeeds. *)
Fixpoint matchAlternatives {A} (lits : list string) (s : string)
         (k : string -> option A) : option A :=
  match lits with
  | [] => None
  | lit :: lits' =>
      match matchLiteralIgnoreCase lit s with
      | Some rest =>
          match k rest with
          | Some r => Some r
          | None => matchAlternatives lits' s k
          end
      | None => matchAlternatives lits' s k
      end
  end.

(** [\s+] at the head of [s]: the rest after the longest run. What follows
    [\s+] in both patterns below starts with a letter or is the end of the
    match, so giving back white space never helps. *)
Definition matchWsPlus (s : string) : option string :=
  match s with
  | EmptyString => None
  | String a s' => if isWhiteSpace a then Some (trimStart s') else None
  end.

(** [\s*$] at the head of [s]. *)
Definition matchWsStarEnd (s : string) : option unit :=
  match trimStart s with
  | EmptyString => Some tt
  | String _ _ => None
  end.

End JS.

(** ** Name normalizer *)

Definition honorifics : list string :=
  ["Mr"; "Mrs"; "Ms"; "Miss"; "Dr"; "Prof"; "Sir"; "Lady"; "Lord"].

Definition generationalSuffixes : list string := ["Jr"; "Sr"; "III"; "IV"].

(** [name.replace(/^(Mr|Mrs|Ms|Miss|Dr|Prof|Sir|Lady|Lord)\s+/i, '')] *)
Definition stripHonorific (s : string) : string :=
  match JS.matchAlternatives honorifics s JS.matchWsPlus with
  | Some rest => rest
  | None => s
  end.

(** [/\s+(Jr|Sr|III|IV)\s*$/i] matched at the head of [s]. *)
Definition matchSuffixHere (s : string) : bool :=
  match JS.matchWsPlus s with
  | Some rest =>
      match JS.matchAlternatives generationalSuffixes rest JS.matchWsStarEnd with
      | Some _ => true
      | None => false
      end
  | None => false
  end.

(** [.replace(/\s+(Jr|Sr|III|IV)\s*$/i, '')]: the leftmost match is removed;
    it extends to the end of the string. *)
Fixpoint stripSuffix (s : string) : string :=
  if matchSuffixHere s then EmptyString
  else match s with
       | EmptyString => EmptyString
       | String a s' => String a (stripSuffix s')
       end.

Definition normalizeCharacterName (name : string) : string :=
  let cleanName := JS.trim (stripSuffix (stripHonorific name)) in
  let parts := filter (fun part => 1 < JS.len part) (JS.splitWs cleanName) in
  JS.joinSpace parts.


(** ** Data model (types/index.ts) *)

Inductive Status := Alive | Dead | Unknown.
Inductive Relevance := Major | Supporting | Minor.
Inductive RelationshipType :=
  family | romantic | conflict | professional | friendship | other.

Record Relationship := {
  targetCharacterId : string;
  type : RelationshipType;
  description : string;
  establishedInChapter : Z
}.

Record ChapterHistory := {
  chapter : Z;
  updates : list string
}.

(** An optional field ([occupation?: string]) is an [option]; [None] is
    [undefined]. *)
Record Character := {
  id : string;
  bookId : string;
  name : string;
  occupation : option string;
  age : option string;
  location : option string;
  status : Status;
  relevance : Relevance;
  relationships : list Relationship;
  firstAppearance : Z;
  lastMentioned : Z;
  briefDescription : option string;
  chapterHistory : list ChapterHistory;
  mentionCount : Z;
  aliases : option (list string)
}.

(** The relationship mentions of [ExtractedCharacterData]. *)
Record ExtractedRelationship := {
  targetName : string;
  ex_type : RelationshipType;
  ex_description : string
}.

(** [ExtractedCharacterData]; its fields carry the prefix [ex_]. [status] and
    [relevance] are declared mandatory but tested for presence by the code,
    as the record is parsed from the reply of the model. *)
Record ExtractedCharacterData := {
  ex_name : string;
  ex_occupation : option string;
  ex_age : option string;
  ex_location : option string;
  ex_status : option Status;
  ex_relevance : option Relevance;
  ex_briefDescription : option string;
  ex_relationships : option (list ExtractedRelationship)
}.

#[global] Instance Status_eq_dec : EqDecision Status.
Proof. solve_decision. Defined.
#[global] Instance Relevance_eq_dec : EqDecision Relevance.
Proof. solve_decision. Defined.
#[global] Instance RelationshipType_eq_dec : EqDecision RelationshipType.
Proof. solve_decision. Defined.
#[global] Instance Relationship_eq_dec : EqDecision Relationship.
Proof. solve_decision. Defined.
#[global] Instance ChapterHistory_eq_dec : EqDecision ChapterHistory.
Proof. solve_decision. Defined.
#[global] Instance Character_eq_dec : EqDecision Character.
Proof. solve_decision. Defined.

(** ** Exceptions *)

Inductive JsError :=
| Error (message : string)
| TypeError (message : string).

(** The outcome of evaluating an expression that may throw. *)
Inductive Completion (A : Type) :=
| Normal (a : A)
| Throw (e : JsError).
Arguments Normal {A} a.
Arguments Throw {A} e.

Definition bindC {A B} (c : Completion A) (k : A -> Completion B) : Completion B :=
  match c with
  | Normal a => k a
  | Throw e => Throw e
  end.

Declare Scope completion_scope.
Delimit Scope completion_scope with C.
Notation "x <-- c ;; k" := (bindC c (fun x => k))
  (at level 100, c at next level, right associativity) : completion_scope.

(** ** Identity resolver *)

Definition commonNicknames : list (string * list string) :=
  [ ("william", ["bill"; "billy"; "will"]);
    ("robert", ["bob"; "bobby"; "rob"]);
    ("richard", ["rick"; "dick"; "rich"]);
    ("elizabeth", ["liz"; "beth"; "betty"]);
    ("margaret", ["meg"; "maggie"; "peggy"]);
    ("katherine", ["kate"; "katie"; "kathy"]);
    ("michael", ["mike"; "mick"]);
    ("christopher", ["chris"]);
    ("anthony", ["tony"]);
    ("benjamin", ["ben"]);
    ("samuel", ["sam"]);
    ("alexander", ["alex"]);
    ("nicholas", ["nick"]) ].

(** The table is an object literal, so a key that is not its own is looked up
    on [Object.prototype]. *)
Definition objectPrototypeKeys : list string :=
  [ "constructor"; "__defineGetter__"; "__defineSetter__"; "hasOwnProperty";
    "__lookupGetter__"; "__lookupSetter__"; "isPrototypeOf";
    "propertyIsEnumerable"; "toString"; "valueOf"; "__proto__";
    "toLocaleString" ].

Definition includes (l : list string) (x : string) : bool :=
  existsb (String.eqb x) l.

Fixpoint ownProperty (table : list (string * list string)) (key : string)
  : option (list string) :=
  match table with
  | [] => None
  | (k, v) :: table' => if String.eqb k key then Some v else ownProperty table' key
  end.

(** [commonNicknames[key]?.includes(x)]: an own entry answers; a missing key
    gives [undefined] (falsy); an inherited member has no [includes], and
    calling it throws. *)
Definition nicknamesInclude (key x : string) : Completion bool :=
  match ownProperty commonNicknames key with
  | Some v => Normal (includes v x)
  | None =>
      if includes objectPrototypeKeys key
      then Throw (TypeError "commonNicknames[fullLower]?.includes is not a function")
      else Normal false
  end.

Definition checkNickname (full short : string) : Completion bool :=
  (let fullLower := JS.toLowerCase full in
   let shortLower := JS.toLowerCase short in
   a <-- nicknamesInclude fullLower shortLower ;;
   b <-- (if a then Normal true else nicknamesInclude shortLower fullLower) ;;
   if b then Normal true
   else if (3 <=? JS.len shortLower) && JS.startsWith fullLower shortLower
        then Normal true
        else Normal false)%C.

(** [parts[0]] and [parts[parts.length - 1]] of a list produced by [split],
    which is never empty. *)
Definition firstPart (parts : list string) : string := hd EmptyString parts.
Definition lastPart (parts : list string) : string := List.last parts EmptyString.

Definition optionAsciiEqb (x y : option ascii) : bool :=
  match x, y with
  | Some a, Some b => Ascii.eqb a b
  | None, None => true
  | _, _ => false
  end.

(** The body of the loop of [findSimilarCharacterNames] for one character of
    the right book: [true] when the body returns that character. *)
Definition similarTo (targetNormalized : string) (targetParts : list string)
           (character : Character) : Completion bool :=
  (let existingNormalized := JS.toLowerCase (normalizeCharacterName (name character)) in
   let existingParts := JS.splitSpace existingNormalized in
   let tlen := Z.of_nat (length targetParts) in
   let elen := Z.of_nat (length existingParts) in
   if String.eqb targetNormalized existingNormalized then Normal true
   else if (tlen =? 1) && (1 <? elen)
           && includes existingParts (firstPart targetParts)
           && (2 <? JS.len (firstPart targetParts))
   then Normal true
   else if (elen =? 1) && (1 <? tlen)
           && includes targetParts (firstPart existingParts)
           && (2 <? JS.len (firstPart existingParts))
   then Normal true
   else if (1 <? tlen) && (1 <? elen)
           && String.eqb (lastPart targetParts) (lastPart existingParts)
           && (2 <? JS.len (lastPart targetParts))
           && optionAsciiEqb (JS.charAt0 (firstPart targetParts))
                             (JS.charAt0 (firstPart existingParts))
   then Normal true
   else if (1 <=? tlen) && (1 <=? elen) then
     n1 <-- checkNickname (firstPart targetParts) (firstPart existingParts) ;;
     n2 <-- (if n1 then Normal true
             else checkNickname (firstPart existingParts) (firstPart targetParts)) ;;
     if n2 then
       if (1 <? tlen) && (1 <? elen)
       then Normal (String.eqb (lastPart targetParts) (lastPart existingParts))
       else Normal true
     else Normal false
   else Normal false)%C.

Fixpoint findSimilarLoop (bookId' : string) (targetNormalized : string)
         (targetParts : list string) (existingCharacters : list Character)
  : Completion (option Character) :=
  match existingCharacters with
  | [] => Normal None
  | character :: rest =>
      if negb (String.eqb (bookId character) bookId')
      then findSimilarLoop bookId' targetNormalized targetParts rest
      else (hit <-- similarTo targetNormalized targetParts character ;;
            if hit then Normal (Some character)
            else findSimilarLoop bookId' targetNormalized targetParts rest)%C
  end.

Definition findSimilarCharacterNames (bookId' : string) (targetName : string)
           (existingCharacters : list Character) : Completion (option Character) :=
  let targetNormalized := JS.toLowerCase (normalizeCharacterName targetName) in
  let targetParts := JS.splitSpace targetNormalized in
  findSimilarLoop bookId' targetNormalized targetParts existingCharacters.

(** ** The tables and the monad of the asynchronous methods *)

(** [characters] is the Dexie table; [randomUUIDs] is the sequence of values
    that [crypto.randomUUID()] is going to return and [drawn] counts the
    calls made so far. *)
Record World := {
  characters : gmap string Character;
  randomUUIDs : nat -> string;
  drawn : nat
}.

Definition M (A : Type) : Type := World -> Completion A * World.

Definition ret {A} (a : A) : M A := fun w => (Normal a, w).

Definition bind {A B} (m : M A) (k : A -> M B) : M B :=
  fun w =>
    match m w with
    | (Normal a, w') => k a w'
    | (Throw e, w') => (Throw e, w')
    end.

Definition throw {A} (e : JsError) : M A := fun w => (Throw e, w).

(** [try { body } catch (error) { handler }] *)
Definition tryCatch {A} (body : M A) (handler : JsError -> M A) : M A :=
  fun w =>
    match body w with
    | (Normal a, w') => (Normal a, w')
    | (Throw e, w') => handler e w'
    end.

Definition liftC {A} (c : Completion A) : M A := fun w => (c, w).

Declare Scope M_scope.
Delimit Scope M_scope with M.
Notation "x <- c ;; k" := (bind c (fun x => k))
  (at level 100, c at next level, right associativity) : M_scope.
Notation "c ;; k" := (bind c (fun _ => k))
  (at level 100, right associativity) : M_scope.

(** [for (const x of xs) { body }] *)
Fixpoint forEach {A} (xs : list A) (body : A -> M unit) : M unit :=
  match xs with
  | [] => ret tt
  | x :: xs' => (body x ;; forEach xs' body)%M
  end.

Definition setCharacters (w : World) (t : gmap string Character) : World :=
  {| characters := t; randomUUIDs := randomUUIDs w; drawn := drawn w |}.

(** *** Dexie operations on [db.characters] *)

Module Table.

Definition get (key : string) : M (option Character) :=
  fun w => (Normal (characters w !! key), w).

(** The primary key is inline: a record is stored under its own [id]. *)
Definition put (c : Character) : M unit :=
  fun w => (Normal tt, setCharacters w (<[id c := c]> (characters w))).

Definition delete (key : string) : M unit :=
  fun w => (Normal tt, setCharacters w (base.delete key (characters w))).

Definition bulkPut (cs : list Character) : M unit := forEach cs put.

Definition keyLe (p q : string * Character) : Prop := String.leb p.1 q.1 = true.

#[global] Instance keyLe_dec p q : Decision (keyLe p q).
Proof. unfold keyLe. apply _. Defined.

(** The rows in primary-key order. *)
Definition rows (t : gmap string Character) : list Character :=
  (merge_sort keyLe (map_to_list t)).*2.

(** [where('bookId').equals(b)] followed by [toArray()]. *)
Definition whereBookId (b : string) : M (list Character) :=
  fun w => (Normal (filter (fun c => bookId c = b) (rows (characters w))), w).

End Table.

(** *** Record updates *)

Definition withRelationships (c : Character) (rs : list Relationship) : Character :=
  {| id := id c; bookId := bookId c; name := name c; occupation := occupation c;
     age := age c; location := location c; status := status c;
     relevance := relevance c; relationships := rs;
     firstAppearance := firstAppearance c; lastMentioned := lastMentioned c;
     briefDescription := briefDescription c; chapterHistory := chapterHistory c;
     mentionCount := mentionCount c; aliases := aliases c |}.

Definition withBookId (c : Character) (b : string) : Character :=
  {| id := id c; bookId := b; name := name c; occupation := occupation c;
     age := age c; location := location c; status := status c;
     relevance := relevance c; relationships := relationships c;
     firstAppearance := firstAppearance c; lastMentioned := lastMentioned c;
     briefDescription := briefDescription c; chapterHistory := chapterHistory c;
     mentionCount := mentionCount c; aliases := aliases c |}.

Definition withTarget (r : Relationship) (t : string) : Relationship :=
  {| targetCharacterId := t; type := type r; description := description r;
     establishedInChapter := establishedInChapter r |}.

(** ** Character service (db/services.ts) *)

Definition saveCharacters (bookId' : string) (cs : list Character) : M unit :=
  let charactersWithBookId := map (fun char => withBookId char bookId') cs in
  Table.bulkPut charactersWithBookId.

Definition getCharactersForBook (bookId' : string) : M (list Character) :=
  Table.whereBookId bookId'.

Definition getCharactersUpToChapter (bookId' : string) (maxChapter : Z)
  : M (list Character) :=
  (allCharacters <- getCharactersForBook bookId' ;;
   ret (filter (fun character => firstAppearance character <= maxChapter) allCharacters))%M.

Definition findCharacterByName (bookId' : string) (name' : string)
  : M (option Character) :=
  (rows <- Table.whereBookId bookId' ;;
   ret (head (filter (fun char => JS.toLowerCase (name char) = JS.toLowerCase name') rows)))%M.

(** [arr.indexOf(x)], with -1 when [x] does not occur. *)
Fixpoint indexOf (arr : list string) (x : string) : Z :=
  match arr with
  | [] => -1
  | y :: arr' =>
      if String.eqb y x then 0
      else let r := indexOf arr' x in if r <? 0 then -1 else r + 1
  end.

(** [arr.filter((x, index, arr) => arr.indexOf(x) === index)]; [index] is the
    position in the whole array of the head of [rest]. *)
Fixpoint keepFirstFrom (arr : list string) (index : Z) (rest : list string)
  : list string :=
  match rest with
  | [] => []
  | x :: rest' =>
      if indexOf arr x =? index
      then x :: keepFirstFrom arr (index + 1) rest'
      else keepFirstFrom arr (index + 1) rest'
  end.

Definition keepFirstOccurrences (arr : list string) : list string :=
  keepFirstFrom arr 0 arr.

(** [hs.sort((a, b) => a.chapter - b.chapter)]; the sort is stable. *)
Fixpoint insertByChapter (h : ChapterHistory) (sorted : list ChapterHistory)
  : list ChapterHistory :=
  match sorted with
  | [] => [h]
  | x :: sorted' =>
      if chapter h <=? chapter x then h :: sorted
      else x :: insertByChapter h sorted'
  end.

Definition sortByChapter (hs : list ChapterHistory) : list ChapterHistory :=
  foldr insertByChapter [] hs.

Definition sameEdge (a b : Relationship) : bool :=
  String.eqb (targetCharacterId a) (targetCharacterId b)
  && bool_decide (type a = type b).

Definition mergedCharacter (sourceChar targetChar : Character) : Character :=
  {| id := id targetChar;
     bookId := bookId targetChar;
     name := name targetChar;
     occupation := occupation targetChar;
     age := age targetChar;
     location := location targetChar;
     status := status targetChar;
     relevance := relevance targetChar;
     relationships :=
       relationships targetChar ++
       List.filter (fun sourceRel =>
                 negb (existsb (fun targetRel => sameEdge targetRel sourceRel)
                               (relationships targetChar)))
              (relationships sourceChar);
     firstAppearance := Z.min (firstAppearance targetChar) (firstAppearance sourceChar);
     lastMentioned := lastMentioned targetChar;
     briefDescription := briefDescription targetChar;
     chapterHistory :=
       sortByChapter
         (chapterHistory targetChar ++
          List.filter (fun sourceHist =>
                    negb (existsb (fun targetHist => chapter targetHist =? chapter sourceHist)
                                  (chapterHistory targetChar)))
                 (chapterHistory sourceChar));
     mentionCount := mentionCount targetChar + mentionCount sourceChar;
     aliases :=
       Some (keepFirstOccurrences
               (default [] (aliases targetChar) ++
                name sourceChar :: default [] (aliases sourceChar))) |}.

(** [rel => rel.targetCharacterId === sourceCharacterId ? {...rel,
    targetCharacterId} : rel], the function mapped over the edges. *)
Definition repointEdge (sourceCharacterId targetCharacterId' : string)
           (rel : Relationship) : Relationship :=
  if String.eqb (targetCharacterId rel) sourceCharacterId
  then withTarget rel targetCharacterId'
  else rel.

(** The body of the loop that repoints the edges of one character; [updated]
    is set as soon as one edge is rewritten. *)
Definition repoint (sourceCharacterId targetCharacterId' : string) (char : Character)
  : M unit :=
  let updated :=
    existsb (fun rel => String.eqb (targetCharacterId rel) sourceCharacterId)
            (relationships char) in
  let updatedRelationships :=
    map (repointEdge sourceCharacterId targetCharacterId') (relationships char) in
  if updated then Table.put (withRelationships char updatedRelationships)
  else ret tt.

Definition mergeCharacters (sourceCharacterId targetCharacterId' : string) : M unit :=
  (sourceChar <- Table.get sourceCharacterId ;;
   targetChar <- Table.get targetCharacterId' ;;
   match sourceChar, targetChar with
   | Some sourceChar, Some targetChar =>
       if negb (String.eqb (bookId sourceChar) (bookId targetChar))
       then throw (Error "Cannot merge characters from different books")
       else
         let mergedChar := mergedCharacter sourceChar targetChar in
         allCharacters <- Table.whereBookId (bookId sourceChar) ;;
         forEach allCharacters (repoint sourceCharacterId targetCharacterId') ;;
         Table.put mergedChar ;;
         Table.delete sourceCharacterId
   | _, _ => throw (Error "Source or target character not found")
   end)%M.

(** The graph's tap handler in front of the merge
    (SimpleChapterBoundaryEditor.tsx). A node stands for its character and
    [node.id()] is that character's id. *)
Record TapState := {
  lastTapTime : Z;
  lastTappedNode : option Character;
  selectedForMerge : option Character
}.

(** [confirmed] is the answer of [window.confirm]; a failed merge is caught
    and shown in a tooltip. *)
Definition handleCharacterMerge (sourceChar targetChar : Character) (confirmed : bool)
  : M unit :=
  if confirmed
  then tryCatch (mergeCharacters (id sourceChar) (id targetChar)) (fun _ => ret tt)
  else ret tt.

Definition sameNode (n : option Character) (node : Character) : bool :=
  match n with
  | Some m => String.eqb (id m) (id node)
  | None => false
  end.

Definition onNodeTap (st : TapState) (node : Character) (currentTime : Z)
           (confirmed : bool) : M TapState :=
  (let timeDiff := currentTime - lastTapTime st in
   selected <-
     (if (timeDiff <? 300) && sameNode (lastTappedNode st) node then
        if sameNode (selectedForMerge st) node then ret None
        else ret (Some node)
      else
        match selectedForMerge st with
        | Some sel =>
            if negb (String.eqb (id sel) (id node))
            then handleCharacterMerge sel node confirmed ;; ret None
            else ret (selectedForMerge st)
        | None => ret (selectedForMerge st)
        end) ;;
   ret {| lastTapTime := currentTime;
          lastTappedNode := Some node;
          selectedForMerge := selected |})%M.

(** ** Chapter-scoped view (CharacterDetail.tsx and the character map) *)

(** CharacterDetail.tsx: the edges and the history shown for a character. *)
Definition relevantRelationships (character : Character) (currentChapter : Z)
  : list Relationship :=
  filter (fun rel => establishedInChapter rel <= currentChapter)
         (relationships character).

Definition relevantHistory (character : Character) (currentChapter : Z)
  : list ChapterHistory :=
  filter (fun hist => chapter hist <= currentChapter) (chapterHistory character).

(** The graph: a node carries its character (its random start position is
    left out), a link its two nodes and the edge. *)
Record CharacterNode := {
  node_id : string;
  node_character : Character
}.

Record CharacterLink := {
  source : CharacterNode;
  target : CharacterNode;
  relationship : Relationship
}.

Record GraphData := {
  nodes : list CharacterNode;
  links : list CharacterLink;
  maxMentions : Z
}.

(** [new Map(nodes.map(node => [node.id, node]))]: a later entry replaces an
    earlier one with the same key. *)
Definition nodeMapOf (ns : list CharacterNode) : gmap string CharacterNode :=
  foldl (fun m node => <[node_id node := node]> m) ∅ ns.

Definition visibleCharacters (all : list Character) (currentChapter : Z)
  : list Character :=
  filter (fun char => firstAppearance char <= currentChapter) all.

Definition prepareGraphData (all : list Character) (currentChapter : Z) : GraphData :=
  let visible := visibleCharacters all currentChapter in
  let maxMentions' := foldr Z.max 1 (map mentionCount visible) in
  let nodes' :=
    map (fun character => {| node_id := id character; node_character := character |})
        visible in
  let nodeMap := nodeMapOf nodes' in
  let links' :=
    visible ≫= (fun character =>
      relationships character ≫= (fun relationship' =>
        if decide (establishedInChapter relationship' <= currentChapter) then
          match nodeMap !! targetCharacterId relationship', nodeMap !! id character with
          | Some targetNode, Some sourceNode =>
              [ {| source := sourceNode; target := targetNode;
                   relationship := relationship' |} ]
          | _, _ => []
          end
        else [])) in
  {| nodes := nodes'; links := links'; maxMentions := maxMentions' |}.

(** ** Chapter observation processor (services/characterExtraction.ts) *)

Module JSText.

(** [s.indexOf(c)] and [s.lastIndexOf(c)] for a one-character [c]. *)
Fixpoint indexOfChar (c : ascii) (s : string) : Z :=
  match s with
  | EmptyString => -1
  | String a s' =>
      if Ascii.eqb a c then 0
      else let r := indexOfChar c s' in if r <? 0 then -1 else r + 1
  end.

Fixpoint lastIndexOfChar (c : ascii) (s : string) : Z :=
  match s with
  | EmptyString => -1
  | String a s' =>
      let r := lastIndexOfChar c s' in
      if 0 <=? r then r + 1
      else if Ascii.eqb a c then 0 else -1
  end.

(** [s.substring(start, end)]: negative arguments count as 0, arguments past
    the end as the length, and the two are swapped when out of order. *)
Definition substring (s : string) (start stop : Z) : string :=
  let lo := Z.to_nat (Z.max 0 (Z.min start stop)) in
  let hi := Z.to_nat (Z.max 0 (Z.max start stop)) in
  String.substring lo (hi - lo) s.

End JSText.

(** A string that is present and not empty. *)
Definition truthy (o : option string) : option string :=
  match o with
  | Some s => if String.eqb s EmptyString then None else Some s
  | None => None
  end.

(** [x && x !== 'Unknown'] *)
Definition informative (o : option string) : option string :=
  match truthy o with
  | Some s => if String.eqb s "Unknown" then None else Some s
  | None => None
  end.

Definition relevanceOrder (r : Relevance) : Z :=
  match r with
  | Minor => 1
  | Supporting => 2
  | Major => 3
  end.

Definition withName (c : Character) (n : string) : Character :=
  {| id := id c; bookId := bookId c; name := n; occupation := occupation c;
     age := age c; location := location c; status := status c;
     relevance := relevance c; relationships := relationships c;
     firstAppearance := firstAppearance c; lastMentioned := lastMentioned c;
     briefDescription := briefDescription c; chapterHistory := chapterHistory c;
     mentionCount := mentionCount c; aliases := aliases c |}.

Definition updateExistingCharacter (existingCharacter : Character)
           (extractedData : ExtractedCharacterData) (chapterNumber : Z) : Character :=
  let updates :=
    (match informative (ex_occupation extractedData) with
     | Some o => ["Occupation: " +:+ o]
     | None => []
     end ++
     match truthy (ex_briefDescription extractedData) with
     | Some d => [d]
     | None => []
     end)%list in
  {| id := id existingCharacter;
     bookId := bookId existingCharacter;
     name := name existingCharacter;
     occupation :=
       match informative (ex_occupation extractedData) with
       | Some o => Some o
       | None => occupation existingCharacter
       end;
     age :=
       match informative (ex_age extractedData) with
       | Some a => Some a
       | None => age existingCharacter
       end;
     location :=
       match informative (ex_location extractedData) with
       | Some l => Some l
       | None => location existingCharacter
       end;
     status :=
       match ex_status extractedData with
       | Some Unknown | None => status existingCharacter
       | Some s => s
       end;
     relevance :=
       match ex_relevance extractedData with
       | Some r =>
           if relevanceOrder (relevance existingCharacter) <? relevanceOrder r
           then r else relevance existingCharacter
       | None => relevance existingCharacter
       end;
     relationships := relationships existingCharacter;
     firstAppearance := firstAppearance existingCharacter;
     lastMentioned := chapterNumber;
     briefDescription :=
       match truthy (ex_briefDescription extractedData) with
       | Some d => Some d
       | None => briefDescription existingCharacter
       end;
     chapterHistory :=
       match updates with
       | [] => chapterHistory existingCharacter
       | _ :: _ =>
           (chapterHistory existingCharacter
            ++ [ {| chapter := chapterNumber; updates := updates |} ])%list
       end;
     mentionCount := mentionCount existingCharacter + 1;
     aliases := aliases existingCharacter |}.

(** [crypto.randomUUID()] *)
Definition randomUUID : M string :=
  fun w => (Normal (randomUUIDs w (drawn w)),
            {| characters := characters w; randomUUIDs := randomUUIDs w;
               drawn := S (drawn w) |}).

Definition createNewCharacter (bookId' : string)
           (extractedData : ExtractedCharacterData) (chapterNumber : Z) : M Character :=
  (uuid <- randomUUID ;;
   ret {| id := uuid;
          bookId := bookId';
          name := ex_name extractedData;
          occupation := Some (default "Unknown" (truthy (ex_occupation extractedData)));
          age := Some (default "Unknown" (truthy (ex_age extractedData)));
          location := Some (default "Unknown" (truthy (ex_location extractedData)));
          status := default Unknown (ex_status extractedData);
          relevance := default Minor (ex_relevance extractedData);
          relationships := [];
          firstAppearance := chapterNumber;
          lastMentioned := chapterNumber;
          briefDescription := ex_briefDescription extractedData;
          chapterHistory :=
            [ {| chapter := chapterNumber;
                 updates :=
                   default "First appearance" (truthy (ex_briefDescription extractedData))
                   :: match informative (ex_occupation extractedData) with
                      | Some o => ["Occupation: " +:+ o]
                      | None => []
                      end |} ];
          mentionCount := 1;
          aliases := None |})%M.

(** The body of the loop of [processGeminiResponse] for one candidate:
    the character pushed on [characters], if any. *)
Definition processCandidate (bookId' : string) (chapterNumber : Z)
           (extractedChar : ExtractedCharacterData) : M (option Character) :=
  (if String.eqb (ex_name extractedChar) EmptyString
      || String.eqb (JS.trim (ex_name extractedChar)) EmptyString
   then ret None
   else
     allBookCharacters <- getCharactersForBook bookId' ;;
     exact <- findCharacterByName bookId' (ex_name extractedChar) ;;
     existingCharacter <-
       match exact with
       | Some c => ret (Some c)
       | None =>
           fuzzyMatch <- liftC (findSimilarCharacterNames bookId'
                                  (ex_name extractedChar) allBookCharacters) ;;
           match fuzzyMatch with
           | Some c =>
               let currentName := name c in
               let newName := ex_name extractedChar in
               if (JS.len currentName <? JS.len newName)
                  || (JS.includesSpace newName && negb (JS.includesSpace currentName))
               then ret (Some (withName c newName))
               else ret (Some c)
           | None => ret None
           end
       end ;;
     match existingCharacter with
     | Some c => ret (Some (updateExistingCharacter c extractedChar chapterNumber))
     | None =>
         newCharacter <- createNewCharacter bookId' extractedChar chapterNumber ;;
         ret (Some newCharacter)
     end)%M.

Fixpoint processCandidates (bookId' : string) (chapterNumber : Z)
         (extracted : list ExtractedCharacterData) : M (list Character) :=
  match extracted with
  | [] => ret []
  | extractedChar :: rest =>
      (pushed <- processCandidate bookId' chapterNumber extractedChar ;;
       others <- processCandidates bookId' chapterNumber rest ;;
       ret (option_list pushed ++ others)%list)%M
  end.

(** [characterMap]: the objects of [characters] are told apart by their
    position; a later character replaces an earlier one of the same
    lower-cased name. *)
Definition characterMapOf (cs : list Character) : gmap string nat :=
  foldl (fun m ic => <[JS.toLowerCase (name ic.2) := ic.1]> m) ∅ (imap pair cs).

(** The inner loop of [processRelationships] for one relationship mention of
    the character at position [owner]. *)
Definition addRelationship (characterMap : gmap string nat) (chapterNumber : Z)
           (owner : nat) (cs : list Character) (rel : ExtractedRelationship)
  : list Character :=
  match characterMap !! JS.toLowerCase (targetName rel) with
  | None => cs
  | Some targetIndex =>
      match cs !! owner, cs !! targetIndex with
      | Some character, Some targetCharacter =>
          let existingRel :=
            List.find (fun r => String.eqb (targetCharacterId r) (id targetCharacter)
                                && bool_decide (type r = ex_type rel))
                      (relationships character) in
          match existingRel with
          | Some _ => cs
          | None =>
              <[owner := withRelationships character
                           (relationships character
                            ++ [ {| targetCharacterId := id targetCharacter;
                                    type := ex_type rel;
                                    description := ex_description rel;
                                    establishedInChapter := chapterNumber |} ])%list]> cs
          end
      | _, _ => cs
      end
  end.

Definition processRelationships (cs : list Character)
           (extractedData : list ExtractedCharacterData) (chapterNumber : Z)
  : list Character :=
  let characterMap := characterMapOf cs in
  foldl (fun cs extractedChar =>
           match characterMap !! JS.toLowerCase (ex_name extractedChar),
                 ex_relationships extractedChar with
           | Some owner, Some rels =>
               foldl (addRelationship characterMap chapterNumber owner) cs rels
           | _, _ => cs
           end)
        cs extractedData.

Section Extraction.

(** [JSON.parse] followed by the reading of [parsed.characters]: a syntax
    error is thrown; [None] stands for a value whose [characters] member is
    missing or is not an array; otherwise the array, its elements read at
    the declared type. *)
Variable JSON_parse : string -> Completion (option (list ExtractedCharacterData)).

Definition parseFailure : JsError :=
  Error "Failed to parse character data from AI response".

Definition processGeminiResponse (bookId' : string) (chapterNumber : Z)
           (responseText : string) : M (list Character) :=
  tryCatch
    (let jsonStart := JSText.indexOfChar "{"%char responseText in
     let jsonEnd := JSText.lastIndexOfChar "}"%char responseText + 1 in
     if (jsonStart =? -1) || (jsonEnd =? 0)
     then throw (Error "No valid JSON found in response")
     else
       let jsonString := JSText.substring responseText jsonStart jsonEnd in
       parsed <- liftC (JSON_parse jsonString) ;;
       match parsed with
       | None => throw (Error "Invalid response format: missing characters array")
       | Some extracted =>
           cs <- processCandidates bookId' chapterNumber extracted ;;
           ret (processRelationships cs extracted chapterNumber)
       end)%M
    (fun _ => throw parseFailure).

(** [reply] is what the request to the model gives: the text of its first
    candidate, or the error thrown for a failed request. *)
Definition extractCharacters (bookId' : string) (chapterNumber : Z)
           (reply : Completion string) : M (list Character) :=
  tryCatch
    (responseText <- liftC reply ;;
     processGeminiResponse bookId' chapterNumber responseText)%M
    (fun error => throw error).

(** What [handleAnalyzeChapter] shows at the end. *)
Inductive AnalysisResult :=
| AnalysisFailed (error : string)
| AnalysisComplete (extractedCharacters : list Character).

Definition errorMessage (e : JsError) : string :=
  match e with
  | Error m => m
  | TypeError m => m
  end.

(** Steps 2 and 3 of [handleAnalyzeChapter], for the book [bookId'] at its
    current chapter. *)
Definition handleAnalyzeChapter (bookId' : string) (currentChapter : Z)
           (reply : Completion string) : M AnalysisResult :=
  tryCatch
    (cs <- extractCharacters bookId' currentChapter reply ;;
     saveCharacters bookId' cs ;;
     ret (AnalysisComplete cs))%M
    (fun err => ret (AnalysisFailed (errorMessage err))).

End Extraction.

(** ** Predicates and auxiliary functions of the statements *)

(** Every row is stored under its own id, as the inline primary key makes it. *)
Definition keyed (t : gmap string Character) : Prop :=
  forall k c, t !! k = Some c -> id c = k.

(** No two edges of a character share both target and type. *)
Definition noDuplicateEdges (c : Character) : Prop :=
  NoDup (map (fun r => (targetCharacterId r, type r)) (relationships c)).

(** A computation that leaves the table [characters] as it found it. *)
Definition readOnly {A} (m : M A) : Prop :=
  forall w, characters (m w).2 = characters w.

(** A reply that is not the expected structured list: no brace to cut at, a
    text that does not parse, or a value without a [characters] array. *)
Definition malformedReply
           (JSON_parse : string -> Completion (option (list ExtractedCharacterData)))
           (responseText : string) : Prop :=
  let jsonStart := JSText.indexOfChar "{"%char responseText in
  let jsonEnd := JSText.lastIndexOfChar "}"%char responseText + 1 in
  jsonStart = -1 \/ jsonEnd = 0
  \/ (exists e, JSON_parse (JSText.substring responseText jsonStart jsonEnd) = Throw e)
  \/ JSON_parse (JSText.substring responseText jsonStart jsonEnd) = Normal None.

(** A string without white space. *)
Fixpoint wsFree (s : string) : bool :=
  match s with
  | EmptyString => true
  | String a s' => negb (JS.isWhiteSpace a) && wsFree s'
  end.

(** A token: not empty and without white space. *)
Definition isToken (s : string) : Prop := s <> EmptyString /\ wsFree s = true.

Definition updatedBy (src : string) (c : Character) : bool :=
  existsb (fun rel => String.eqb (targetCharacterId rel) src) (relationships c).

Definition repointed (src tgt : string) (c : Character) : Character :=
  withRelationships c (map (repointEdge src tgt) (relationships c)).

(** What one turn of the loop does to the table. *)
Definition repointRow (src tgt : string) (t : gmap string Character)
           (c : Character) : gmap string Character :=
  if updatedBy src c then <[id c := repointed src tgt c]> t else t.

Definition mergedTable (a b : string) (A B : Character)
           (t : gmap string Character) : gmap string Character :=
  base.delete a
    (<[id B := mergedCharacter A B]>
       (foldl (repointRow a b) t
              (filter (fun c => bookId c = bookId A) (Table.rows t)))).

(** ** Sample data *)

Definition sampleCharacter (i b n : string) (rs : list Relationship) : Character :=
  {| id := i; bookId := b; name := n; occupation := None; age := None;
     location := None; status := Unknown; relevance := Minor; relationships := rs;
     firstAppearance := 1; lastMentioned := 1; briefDescription := None;
     chapterHistory := []; mentionCount := 1; aliases := None |}.

Definition sampleEdge (t : string) (ty : RelationshipType) : Relationship :=
  {| targetCharacterId := t; type := ty; description := "knows";
     establishedInChapter := 1 |}.

Definition worldOf (t : gmap string Character) : World :=
  {| characters := t; randomUUIDs := fun _ => "uuid"; drawn := 0 |}.

Definition alice : Character := sampleCharacter "a" "book1" "Alice" [].
Definition bob : Character :=
  sampleCharacter "b" "book1" "Bob" [sampleEdge "a" friendship].
Definition carol : Character :=
  sampleCharacter "c" "book1" "Carol" [sampleEdge "a" family; sampleEdge "b" family].
Definition dave : Character := sampleCharacter "d" "book2" "Dave" [].

Definition sampleTable : gmap string Character :=
  <["a" := alice]> (<["b" := bob]> (<["c" := carol]> (<["d" := dave]> ∅))).

Definition sampleWorld : World := worldOf sampleTable.

Definition johnDoe : Character := sampleCharacter "j" "book1" "John Doe" [].

Definition candidate (n : string) : ExtractedCharacterData :=
  {| ex_name := n; ex_occupation := None; ex_age := None; ex_location := None;
     ex_status := None; ex_relevance := Some Minor; ex_briefDescription := None;
     ex_relationships := Some [] |}.

Definition sampleCast : list Character :=
  [ alice; bob; carol;
    {| id := "e"; bookId := "book1"; name := "Erin"; occupation := None;
       age := None; location := None; status := Alive; relevance := Major;
       relationships := [sampleEdge "c" romantic]; firstAppearance := 3;
       lastMentioned := 3; briefDescription := None; chapterHistory := [];
       mentionCount := 1; aliases := None |} ].

(** An empty table; the ids drawn are "a", "b", "c", ... *)
Definition emptyWorld : World :=
  {| characters := ∅;
     randomUUIDs := fun n => String (ascii_of_nat (97 + n)) EmptyString;
     drawn := 0 |}.

(** ** Further methods of the character service (db/services.ts) *)

Definition updateCharacter (character : Character) : M unit :=
  Table.put character.

(** [db.characters.where('bookId').equals(bookId).delete()] *)
Definition deleteCharactersForBook (bookId' : string) : M unit :=
  fun w =>
    (Normal tt,
     setCharacters w
       (filter (fun kc : string * Character => bookId kc.2 <> bookId')
               (characters w))).

(** The [Set<number>] is a [gset Z]; its callers only ask [has]. *)
Definition getAnalyzedChapters (bookId' : string) : M (gset Z) :=
  (cs <- getCharactersForBook bookId' ;;
   ret (foldl (fun analyzedChapters character =>
                 foldl (fun analyzed history => analyzed ∪ {[chapter history]})
                       (analyzedChapters ∪ {[firstAppearance character]})
                       (chapterHistory character))
              ∅ cs))%M.

(** ** The Cytoscape graph (SimpleChapterBoundaryEditor.tsx) *)

Module Cytoscape.

(** The data of a node, without its size, colour and opacity. *)
Record NodeData := {
  node_id : string;
  label : string;
  character : Character
}.

(** The data of an edge, without its colour and its empty label. *)
Record EdgeData := {
  edge_id : string;
  source : string;
  target : string;
  relationship : Relationship
}.

(** [a < b ? `${a}-${b}` : `${b}-${a}`] *)
Definition pairKeyOf (a b : string) : string :=
  if String.ltb a b then a +:+ "-" +:+ b else b +:+ "-" +:+ a.

(** The body of the inner [forEach]: [edges] and [processedPairs] after one
    relationship of [character]. [nodeMap] is keyed by the ids of the visible
    characters. *)
Definition addEdge (nodeMap : gmap string Character) (currentChapter : Z)
           (character : Character)
           (acc : list EdgeData * gset string) (relationship' : Relationship)
  : list EdgeData * gset string :=
  let '(edges, processedPairs) := acc in
  if decide (establishedInChapter relationship' <= currentChapter) then
    match nodeMap !! targetCharacterId relationship' with
    | Some targetCharacter =>
        let pairKey := pairKeyOf (id character) (targetCharacterId relationship') in
        if decide (pairKey ∈ processedPairs) then acc
        else ((edges ++ [ {| edge_id := pairKey;
                             source := id character;
                             target := targetCharacterId relationship';
                             relationship := relationship' |} ])%list,
              processedPairs ∪ {[pairKey]})
    | None => acc
    end
  else acc.

Definition prepareGraphData (characters' : list Character) (currentChapter : Z)
  : list NodeData * list EdgeData :=
  let visibleCharacters :=
    filter (fun char => firstAppearance char <= currentChapter) characters' in
  let nodes :=
    map (fun character' =>
           {| node_id := id character'; label := name character';
              character := character' |})
        visibleCharacters in
  let nodeMap : gmap string Character :=
    foldl (fun m char => <[id char := char]> m) ∅ visibleCharacters in
  let result :=
    foldl (fun acc character' =>
             foldl (addEdge nodeMap currentChapter character') acc
                   (relationships character'))
          ([], ∅) visibleCharacters in
  (nodes, result.1).

End Cytoscape.

(** ** Chapter detection (services/pdfProcessor.ts) *)

Record ChapterBoundary := {
  boundary_chapter : Z;
  startPage : Z;
  endPage : Z
}.

(** [[...new Set(pages)]]: the first occurrence of every page, in order. *)
Fixpoint uniqueFrom (seen : list Z) (pages : list Z) : list Z :=
  match pages with
  | [] => []
  | page :: pages' =>
      if bool_decide (page ∈ seen) then uniqueFrom seen pages'
      else page :: uniqueFrom (page :: seen) pages'
  end.

(** [.sort((a, b) => a - b)] *)
Fixpoint insertNumber (x : Z) (sorted : list Z) : list Z :=
  match sorted with
  | [] => [x]
  | y :: sorted' => if x <=? y then x :: sorted else y :: insertNumber x sorted'
  end.

Definition sortNumbers (xs : list Z) : list Z := foldr insertNumber [] xs.

(** The body of the [forEach] of [deduplicateChapterPages]. *)
Definition keepSpaced (filteredPages : list Z) (page : Z) : list Z :=
  match last filteredPages with
  | None => filteredPages ++ [page]
  | Some lastKept =>
      if 3 <? page - lastKept then filteredPages ++ [page] else filteredPages
  end.

Definition deduplicateChapterPages (pages : list Z) : list Z :=
  let uniquePages := sortNumbers (uniqueFrom [] pages) in
  foldl keepSpaced [] uniquePages.

(** The loop of [createChapterBoundaries] from index [i] on; [chapterPages]
    is what is left of the array from that index. *)
Fixpoint boundariesFrom (i : Z) (chapterPages : list Z) (totalPages : Z)
  : list ChapterBoundary :=
  match chapterPages with
  | [] => []
  | startPage' :: rest =>
      {| boundary_chapter := i + 1;
         startPage := startPage';
         endPage := match rest with
                    | next :: _ => next - 1
                    | [] => totalPages
                    end |}
      :: boundariesFrom (i + 1) rest totalPages
  end.

(** [chapterPages[0] !== 1] also holds for an empty array, whose first element
    is [undefined]. *)
Definition createChapterBoundaries (chapterPages : list Z) (totalPages : Z)
  : list ChapterBoundary :=
  let chapterPages' :=
    match chapterPages with
    | 1 :: _ => chapterPages
    | _ => 1 :: chapterPages
    end in
  boundariesFrom 0 chapterPages' totalPages.

Section Detection.

(** The pages collected by the scan for chapter markers and by the scan for
    large fonts of a loaded document, before they are de-duplicated; they
    depend on the text of the pages. *)
Variable explicitMarkerPages : list Z.
Variable largeFontPages : list Z.

(** [detectChapters] for a loaded document of [totalPages] pages. *)
Definition detectChapters (totalPages : Z) : list ChapterBoundary :=
  let explicitChapters := deduplicateChapterPages explicitMarkerPages in
  if negb (Nat.eqb (length explicitChapters) 0)
  then createChapterBoundaries explicitChapters totalPages
  else
    let fontSizeChapters := deduplicateChapterPages largeFontPages in
    if negb (Nat.eqb (length fontSizeChapters) 0)
    then createChapterBoundaries fontSizeChapters totalPages
    else [ {| boundary_chapter := 1; startPage := 1; endPage := totalPages |} ].

End Detection.

(** ** Further predicates of the statements *)

(** [c'] is [c] with edges added at the end, each established in chapter [ch]
    and pointing to one of [ids]. *)
Definition extendedBy (ch : Z) (ids : list string) (c c' : Character) : Prop :=
  c' = withRelationships c (relationships c')
  /\ exists added,
       relationships c' = (relationships c ++ added)%list
       /\ Forall (fun r => establishedInChapter r = ch
                           /\ targetCharacterId r ∈ ids) added.

(** The chapters are numbered from 1, the first starts at page 1, each next
    one starts on the page after the end of the one before, and the last ends
    at page [totalPages]. *)
Definition coversPages (totalPages : Z) (bs : list ChapterBoundary) : Prop :=
  (exists b rest, bs = b :: rest /\ startPage b = 1)
  /\ (forall j b, bs !! j = Some b -> boundary_chapter b = Z.of_nat j + 1)
  /\ (forall j b b', bs !! j = Some b -> bs !! S j = Some b' ->
                     endPage b + 1 = startPage b')
  /\ (exists b, last bs = Some b /\ endPage b = totalPages).

(** ** Further sample data *)

(** Two characters of one book that know each other. *)
Definition xavier : Character :=
  sampleCharacter "x" "book3" "Xavier" [sampleEdge "y" friendship].
Definition yvonne : Character :=
  sampleCharacter "y" "book3" "Yvonne" [sampleEdge "x" family].

Definition pairTable : gmap string Character :=
  <["x" := xavier]> (<["y" := yvonne]> ∅).

Definition pairWorld : World := worldOf pairTable.

(** * Properties *)

(** ** The table *)

Lemma setCharacters_same w : setCharacters w (characters w) = w.
Proof. by destruct w. Qed.

Lemma setCharacters_twice w t t' :
  setCharacters (setCharacters w t) t' = setCharacters w t'.
Proof. done. Qed.

Lemma characters_setCharacters w t : characters (setCharacters w t) = t.
Proof. done. Qed.

Lemma rows_Permutation (t : gmap string Character) :
  Table.rows t ≡ₚ (map_to_list t).*2.
Proof. unfold Table.rows. by rewrite merge_sort_Permutation. Qed.

Lemma elem_of_rows (t : gmap string Character) c :
  c ∈ Table.rows t <-> exists k, t !! k = Some c.
Proof.
  rewrite rows_Permutation, list_elem_of_fmap. split.
  - intros [[k c'] [-> Hin]]. exists k. by apply elem_of_map_to_list.
  - intros [k Hk]. exists (k, c). split; [done|]. by apply elem_of_map_to_list.
Qed.

Lemma rows_ids (t : gmap string Character) :
  keyed t -> id <$> Table.rows t ≡ₚ (map_to_list t).*1.
Proof.
  intros Hk. rewrite rows_Permutation, <- list_fmap_compose.
  erewrite (Forall_fmap_ext_1 (id ∘ snd) fst); [done|].
  apply Forall_forall. intros [k c] Hin. simpl. apply Hk.
  by apply elem_of_map_to_list.
Qed.

Lemma rows_NoDup_ids (t : gmap string Character) :
  keyed t -> NoDup (id <$> Table.rows t).
Proof. intros Hk. rewrite (rows_ids t Hk). apply NoDup_fst_map_to_list. Qed.

Lemma filter_NoDup_ids (P : Character -> Prop) `{!forall c, Decision (P c)} l :
  NoDup (id <$> l) -> NoDup (id <$> filter P l).
Proof.
  intros Hnd. eapply sublist_NoDup; [exact Hnd|].
  apply fmap_sublist, sublist_filter.
Qed.

(** ** The loop that repoints the edges *)

Lemma forEach_repoint src tgt l w :
  forEach l (repoint src tgt) w
  = (Normal tt, setCharacters w (foldl (repointRow src tgt) (characters w) l)).
Proof.
  revert w. induction l as [|c l IH]; intros w; simpl.
  - unfold ret. by rewrite setCharacters_same.
  - unfold bind, repoint, repointRow, updatedBy, repointed.
    destruct (existsb _ (relationships c)); simpl.
    + unfold Table.put. rewrite IH. by rewrite setCharacters_twice.
    + unfold ret. apply IH.
Qed.

Lemma withRelationships_same c : withRelationships c (relationships c) = c.
Proof. by destruct c. Qed.

Lemma map_repointEdge_none src tgt rs :
  existsb (fun rel => String.eqb (targetCharacterId rel) src) rs = false ->
  map (repointEdge src tgt) rs = rs.
Proof.
  induction rs as [|r rs IH]; [done|]. simpl.
  intros [Hr Hrs]%orb_false_iff.
  unfold repointEdge at 1. rewrite Hr. f_equal. by apply IH.
Qed.

Lemma repointed_not_updated src tgt c :
  updatedBy src c = false -> repointed src tgt c = c.
Proof.
  unfold updatedBy, repointed. intros Hu.
  rewrite map_repointEdge_none by done. apply withRelationships_same.
Qed.

Lemma foldl_repointRow_other src tgt l t k :
  k ∉ id <$> l -> foldl (repointRow src tgt) t l !! k = t !! k.
Proof.
  revert t. induction l as [|c l IH]; intros t Hk; [done|].
  simpl in *. apply not_elem_of_cons in Hk as [Hkc Hkl].
  rewrite IH by done. unfold repointRow.
  destruct (updatedBy src c); [|done]. by rewrite lookup_insert_ne.
Qed.

Lemma foldl_repointRow_row src tgt l t c :
  NoDup (id <$> l) -> c ∈ l -> t !! id c = Some c ->
  foldl (repointRow src tgt) t l !! id c = Some (repointed src tgt c).
Proof.
  revert t. induction l as [|x l IH]; intros t Hnd Hin Ht.
  - by apply elem_of_nil in Hin.
  - simpl in *. apply NoDup_cons in Hnd as [Hx Hnd].
    apply elem_of_cons in Hin as [->|Hin].
    + rewrite foldl_repointRow_other by done. unfold repointRow.
      destruct (updatedBy src x) eqn:Hu.
      * apply lookup_insert_eq.
      * by rewrite repointed_not_updated.
    + apply IH; [done..|].
      assert (id x <> id c) as Hne.
      { intros Heq. apply Hx. rewrite Heq. by apply list_elem_of_fmap_2. }
      unfold repointRow. destruct (updatedBy src x); [|done].
      by rewrite lookup_insert_ne.
Qed.

(** ** What a successful merge leaves in the table *)

Lemma mergeCharacters_run a b A B w :
  characters w !! a = Some A ->
  characters w !! b = Some B ->
  bookId A = bookId B ->
  mergeCharacters a b w
  = (Normal tt, setCharacters w (mergedTable a b A B (characters w))).
Proof.
  intros HA HB Hbook. unfold mergeCharacters, bind at 1, Table.get at 1.
  unfold bind at 1, Table.get at 1. rewrite HA, HB.
  rewrite Hbook, String.eqb_refl. simpl.
  unfold bind at 1, Table.whereBookId.
  unfold bind at 1. rewrite forEach_repoint.
  unfold bind, Table.put, Table.delete, mergedTable.
  by rewrite !setCharacters_twice, !characters_setCharacters, Hbook.
Qed.

Lemma keyed_foldl_repointRow src tgt l t :
  keyed t -> keyed (foldl (repointRow src tgt) t l).
Proof.
  revert t. induction l as [|c l IH]; intros t Hk; [done|].
  simpl. apply IH. unfold repointRow.
  destruct (updatedBy src c); [|done].
  intros k c' [[<- <-]|[_ Hc']]%lookup_insert_Some; [done|]. by apply Hk.
Qed.

Lemma keyed_mergedTable a b A B t :
  keyed t -> keyed (mergedTable a b A B t).
Proof.
  intros Hk k c Hc. unfold mergedTable in Hc.
  apply lookup_delete_Some in Hc as [_ Hc].
  apply lookup_insert_Some in Hc as [[<- <-]|[_ Hc]]; [done|].
  by eapply keyed_foldl_repointRow.
Qed.

Lemma mergedTable_source a b A B t : mergedTable a b A B t !! a = None.
Proof. apply lookup_delete_eq. Qed.

Lemma mergedTable_target a b A B t :
  a <> b -> id B = b -> mergedTable a b A B t !! b = Some (mergedCharacter A B).
Proof.
  intros Hab HB. unfold mergedTable.
  rewrite lookup_delete_ne by done. rewrite HB. apply lookup_insert_eq.
Qed.

Lemma mergedTable_elsewhere a b A B t k C :
  keyed t -> id B = b -> k <> a -> k <> b ->
  t !! k = Some C -> bookId C = bookId A ->
  mergedTable a b A B t !! k = Some (repointed a b C).
Proof.
  intros Hk HB Hka Hkb HC Hbook. unfold mergedTable.
  rewrite lookup_delete_ne by done. rewrite lookup_insert_ne by congruence.
  pose proof (Hk _ _ HC) as <-.
  apply foldl_repointRow_row; [| |done].
  - by apply filter_NoDup_ids, rows_NoDup_ids.
  - apply list_elem_of_filter. split; [done|]. apply elem_of_rows. eauto.
Qed.

(** ** Alias de-duplication keeps one copy of every name *)

Lemma indexOf_first pre x rest :
  x ∉ pre -> indexOf (pre ++ x :: rest) x = Z.of_nat (length pre).
Proof.
  induction pre as [|y pre IH]; intros Hx; simpl.
  - by rewrite String.eqb_refl.
  - apply not_elem_of_cons in Hx as [Hxy Hpre].
    destruct (String.eqb_spec y x) as [->|_]; [done|].
    rewrite IH by done.
    destruct (Z.ltb_spec (Z.of_nat (length pre)) 0); lia.
Qed.

Lemma keepFirstFrom_elem pre rest x :
  x ∉ pre -> x ∈ rest ->
  x ∈ keepFirstFrom (pre ++ rest) (Z.of_nat (length pre)) rest.
Proof.
  revert pre. induction rest as [|y rest IH]; intros pre Hpre Hin.
  - by apply elem_of_nil in Hin.
  - simpl. destruct (decide (y = x)) as [->|Hne].
    + rewrite indexOf_first by done. rewrite Z.eqb_refl. apply list_elem_of_here.
    + apply elem_of_cons in Hin as [->|Hin]; [done|].
      assert (x ∈ keepFirstFrom (pre ++ y :: rest)
                    (Z.of_nat (length pre) + 1) rest) as Hgoal.
      { specialize (IH (pre ++ [y])%list).
        rewrite <- app_assoc, length_app in IH. simpl in IH.
        replace (Z.of_nat (length pre + 1)) with (Z.of_nat (length pre) + 1) in IH by lia.
        apply IH; [|done]. rewrite elem_of_app, list_elem_of_singleton.
        intros [?|?]; [done|congruence]. }
      destruct (_ =? _); [by apply list_elem_of_further|done].
Qed.

Lemma keepFirstOccurrences_elem arr x :
  x ∈ arr -> x ∈ keepFirstOccurrences arr.
Proof.
  intros Hin. apply (keepFirstFrom_elem [] arr x); [|done].
  apply not_elem_of_nil.
Qed.

Lemma repointEdge_target a b r :
  a <> b -> targetCharacterId (repointEdge a b r) <> a.
Proof.
  intros Hab. unfold repointEdge.
  destruct (String.eqb_spec (targetCharacterId r) a); simpl; congruence.
Qed.

Lemma repointEdge_pointing a b r :
  targetCharacterId r = a -> repointEdge a b r = withTarget r b.
Proof. intros <-. unfold repointEdge. by rewrite String.eqb_refl. Qed.

(** ** Sample tables *)

Lemma sampleTable_keyed : keyed sampleTable.
Proof.
  intros k c. unfold sampleTable.
  rewrite !lookup_insert_Some, lookup_empty.
  intros [[<- <-]|[_ [[<- <-]|[_ [[<- <-]|[_ [[<- <-]|[_ ?]]]]]]]]; done.
Qed.

(** ** Merge engine *)

(** C1. After a successful merge of two distinct characters A (source) and B
    (target) of one book: no record with A's id is left, B's mention count is
    the sum of both, B's first appearance is the smaller of both, B's aliases
    contain A's name, and every edge of any other character of the book that
    pointed to A points to B. *)
Theorem mergeCharacters_postconditions a b A B w :
  keyed (characters w) ->
  characters w !! a = Some A ->
  characters w !! b = Some B ->
  a <> b ->
  bookId A = bookId B ->
  exists w' B',
    mergeCharacters a b w = (Normal tt, w')
    /\ characters w' !! a = None
    /\ (forall k c, characters w' !! k = Some c -> id c <> a)
    /\ characters w' !! b = Some B'
    /\ mentionCount B' = mentionCount A + mentionCount B
    /\ firstAppearance B' = Z.min (firstAppearance A) (firstAppearance B)
    /\ (exists names, aliases B' = Some names /\ name A ∈ names)
    /\ (forall k C, k <> a -> k <> b ->
          characters w !! k = Some C -> bookId C = bookId A ->
          exists C',
            characters w' !! k = Some C'
            /\ length (relationships C') = length (relationships C)
            /\ (forall i r, relationships C !! i = Some r ->
                  targetCharacterId r = a ->
                  relationships C' !! i = Some (withTarget r b))
            /\ (forall r', r' ∈ relationships C' -> targetCharacterId r' <> a)).
Proof.
  intros Hk HA HB Hab Hbook.
  pose proof (Hk _ _ HB) as HidB.
  exists (setCharacters w (mergedTable a b A B (characters w))), (mergedCharacter A B).
  rewrite characters_setCharacters.
  split; [by apply mergeCharacters_run|].
  split; [apply mergedTable_source|].
  split.
  { intros k c Hc Hid.
    pose proof (keyed_mergedTable a b A B _ Hk _ _ Hc) as Hkc.
    rewrite Hid in Hkc. subst k. by rewrite mergedTable_source in Hc. }
  split; [by apply mergedTable_target|].
  split; [simpl; lia|].
  split; [simpl; lia|].
  split.
  { eexists. split; [reflexivity|]. apply keepFirstOccurrences_elem.
    rewrite elem_of_app, elem_of_cons. auto. }
  intros k C Hka Hkb HC HbC. exists (repointed a b C).
  split; [by apply mergedTable_elsewhere|].
  simpl. split; [apply length_map|]. split.
  - intros i r Hi Hr. rewrite list_lookup_fmap, Hi. simpl.
    by rewrite repointEdge_pointing.
  - intros r' [r [-> _]]%list_elem_of_fmap. by apply repointEdge_target.
Qed.

Lemma mergeCharacters_postconditions_witness :
  exists w' B',
    mergeCharacters "a" "b" sampleWorld = (Normal tt, w')
    /\ characters w' !! "a" = None
    /\ (forall k c, characters w' !! k = Some c -> id c <> "a")
    /\ characters w' !! "b" = Some B'
    /\ mentionCount B' = mentionCount alice + mentionCount bob
    /\ firstAppearance B' = Z.min (firstAppearance alice) (firstAppearance bob)
    /\ (exists names, aliases B' = Some names /\ name alice ∈ names)
    /\ (forall k C, k <> "a" -> k <> "b" ->
          characters sampleWorld !! k = Some C -> bookId C = bookId alice ->
          exists C',
            characters w' !! k = Some C'
            /\ length (relationships C') = length (relationships C)
            /\ (forall i r, relationships C !! i = Some r ->
                  targetCharacterId r = "a" ->
                  relationships C' !! i = Some (withTarget r "b"))
            /\ (forall r', r' ∈ relationships C' -> targetCharacterId r' <> "a")).
Proof.
  apply (mergeCharacters_postconditions "a" "b" alice bob sampleWorld).
  - exact sampleTable_keyed.
  - reflexivity.
  - reflexivity.
  - discriminate.
  - reflexivity.
Defined.

(** C6. A merge of two stored characters of different books throws
    "Cannot merge characters from different books" and leaves the tables as
    they were. *)
Theorem mergeCharacters_cross_book a b A B w :
  characters w !! a = Some A ->
  characters w !! b = Some B ->
  bookId A <> bookId B ->
  mergeCharacters a b w
  = (Throw (Error "Cannot merge characters from different books"), w).
Proof.
  intros HA HB Hbook. unfold mergeCharacters, bind, Table.get.
  rewrite HA, HB.
  destruct (String.eqb_spec (bookId A) (bookId B)) as [Heq|_]; [done|].
  reflexivity.
Qed.

Lemma mergeCharacters_cross_book_witness :
  mergeCharacters "a" "d" sampleWorld
  = (Throw (Error "Cannot merge characters from different books"), sampleWorld).
Proof.
  apply (mergeCharacters_cross_book "a" "d" alice dave sampleWorld).
  - reflexivity.
  - reflexivity.
  - discriminate.
Defined.

(** C10. An edge of the target B that points to the source A survives the
    merge unchanged: the record stored for B afterwards still holds it, while
    no record is stored under A's id any more. *)
Theorem mergeCharacters_target_keeps_edge_to_source a b A B r w :
  keyed (characters w) ->
  characters w !! a = Some A ->
  characters w !! b = Some B ->
  a <> b ->
  bookId A = bookId B ->
  r ∈ relationships B ->
  targetCharacterId r = a ->
  exists w' B',
    mergeCharacters a b w = (Normal tt, w')
    /\ characters w' !! b = Some B'
    /\ r ∈ relationships B'
    /\ characters w' !! a = None
    /\ B' = mergedCharacter A B.
Proof.
  intros Hk HA HB Hab Hbook Hr Ht.
  exists (setCharacters w (mergedTable a b A B (characters w))), (mergedCharacter A B).
  rewrite characters_setCharacters.
  split; [by apply mergeCharacters_run|].
  split; [apply mergedTable_target; [done|by apply Hk]|].
  split; [simpl; apply elem_of_app; by left|].
  split; [apply mergedTable_source|done].
Qed.

Lemma mergeCharacters_target_keeps_edge_to_source_witness :
  exists w' B',
    mergeCharacters "a" "b" sampleWorld = (Normal tt, w')
    /\ characters w' !! "b" = Some B'
    /\ sampleEdge "a" friendship ∈ relationships B'
    /\ characters w' !! "a" = None
    /\ B' = mergedCharacter alice bob.
Proof.
  apply (mergeCharacters_target_keeps_edge_to_source
           "a" "b" alice bob (sampleEdge "a" friendship) sampleWorld).
  - exact sampleTable_keyed.
  - reflexivity.
  - reflexivity.
  - discriminate.
  - reflexivity.
  - apply list_elem_of_here.
  - reflexivity.
Defined.

Lemma sampleTable_lookup k c :
  sampleTable !! k = Some c ->
  (k = "a" /\ c = alice) \/ (k = "b" /\ c = bob)
  \/ (k = "c" /\ c = carol) \/ (k = "d" /\ c = dave).
Proof.
  unfold sampleTable. rewrite !lookup_insert_Some, lookup_empty.
  intros [[<- <-]|[_ [[<- <-]|[_ [[<- <-]|[_ [[<- <-]|[_ ?]]]]]]]]; auto; done.
Qed.

(** C3, as stated, fails: merging Alice into herself throws nothing and
    removes her record. *)
Lemma self_merge_not_rejected :
  ~ ((exists e, (mergeCharacters "a" "a" sampleWorld).1 = Throw e)
     /\ characters (mergeCharacters "a" "a" sampleWorld).2 = characters sampleWorld).
Proof.
  rewrite (mergeCharacters_run "a" "a" alice alice) by reflexivity.
  intros [[e He] _]. discriminate He.
Qed.

(** What [mergeCharacters] does when it is called with the id of a stored
    character as both source and target. *)
Lemma mergeCharacters_self x X w :
  characters w !! x = Some X ->
  exists w', mergeCharacters x x w = (Normal tt, w')
             /\ characters w' !! x = None.
Proof.
  intros HX. eexists. split.
  - by apply (mergeCharacters_run x x X X).
  - rewrite characters_setCharacters. apply mergedTable_source.
Qed.

(** C3, amended. A merge of a character into itself is stopped in front of
    the merge engine: a tap on the character that is selected for merging
    leaves the tables as they were, and a tap changes the tables only when a
    character with another id than the tapped one was selected. *)
Theorem self_merge_stopped_by_tap_handler :
  (forall st sel node time confirmed w,
      selectedForMerge st = Some sel ->
      id sel = id node ->
      exists st', onNodeTap st node time confirmed w = (Normal st', w))
  /\ (forall st node time confirmed w,
        (onNodeTap st node time confirmed w).2 <> w ->
        exists sel, selectedForMerge st = Some sel /\ id sel <> id node).
Proof.
  split.
  - intros st sel node time confirmed w Hsel Hid.
    unfold onNodeTap, bind. rewrite Hsel. simpl. rewrite Hid, String.eqb_refl.
    destruct (_ && _); simpl; eauto.
  - intros st node time confirmed w Hchanged.
    unfold onNodeTap, bind in Hchanged.
    destruct (_ && _) in Hchanged.
    { destruct (sameNode _ _) in Hchanged; by destruct Hchanged. }
    destruct (selectedForMerge st) as [sel|]; [|by destruct Hchanged].
    exists sel. split; [done|].
    destruct (String.eqb_spec (id sel) (id node)) as [Heq|Hne]; [|done].
    by destruct Hchanged.
Qed.

Lemma self_merge_stopped_by_tap_handler_witness :
  exists st',
    onNodeTap {| lastTapTime := 0; lastTappedNode := None;
                 selectedForMerge := Some alice |}
              alice 1000 true sampleWorld
    = (Normal st', sampleWorld).
Proof.
  apply (proj1 self_merge_stopped_by_tap_handler _ alice alice); reflexivity.
Defined.

(** The two places that add edges keep them free of duplicates: the union
    that builds the merged record, and the resolution of the relationship
    mentions of a chapter. *)
Lemma sameEdge_true a b :
  sameEdge a b = true <->
  (targetCharacterId a, type a) = (targetCharacterId b, type b).
Proof.
  unfold sameEdge. rewrite andb_true_iff, String.eqb_eq, bool_decide_eq_true.
  split; [intros [-> ->]; done|intros [= -> ->]; done].
Qed.

Lemma elem_of_map_List_filter {A B} (k : A -> B) (f : A -> bool) l x :
  x ∈ map k (List.filter f l) -> x ∈ map k l.
Proof.
  induction l as [|y l IH]; simpl; [done|].
  destruct (f y); simpl; rewrite ?elem_of_cons; intros; [|right; auto].
  destruct H as [->|H]; [by left|right; auto].
Qed.

Lemma NoDup_map_List_filter {A B} (k : A -> B) (f : A -> bool) l :
  NoDup (map k l) -> NoDup (map k (List.filter f l)).
Proof.
  induction l as [|y l IH]; simpl; [done|].
  intros [Hy Hl]%NoDup_cons. destruct (f y); simpl; [|by apply IH].
  apply NoDup_cons. split; [|by apply IH].
  intros Hin. by apply Hy, (elem_of_map_List_filter k f).
Qed.

(** X18. The union of edges in a merged record never holds two edges with
    the same target and type, provided neither operand did. *)
Lemma mergedCharacter_noDuplicateEdges A B :
  noDuplicateEdges A -> noDuplicateEdges B ->
  noDuplicateEdges (mergedCharacter A B).
Proof.
  unfold noDuplicateEdges. simpl. intros HA HB.
  rewrite map_app. apply NoDup_app. split; [done|]. split.
  - intros key HkB HkA.
    apply list_elem_of_fmap in HkA as (r & -> & Hr).
    apply list_elem_of_In, filter_In in Hr as [_ Hr].
    apply negb_true_iff in Hr.
    apply list_elem_of_fmap in HkB as (rb & Hkey & Hrb).
    assert (existsb (fun targetRel => sameEdge targetRel r) (relationships B) = true)
      as Hex; [|congruence].
    apply existsb_exists. exists rb. split; [by apply list_elem_of_In|].
    by apply sameEdge_true.
  - by apply NoDup_map_List_filter.
Qed.

Lemma addRelationship_noDuplicateEdges characterMap ch owner cs rel :
  Forall noDuplicateEdges cs ->
  Forall noDuplicateEdges (addRelationship characterMap ch owner cs rel).
Proof.
  intros Hcs. unfold addRelationship.
  destruct (characterMap !! _) as [targetIndex|]; [|done].
  destruct (cs !! owner) as [character|] eqn:Hown; [|done].
  destruct (cs !! targetIndex) as [targetCharacter|]; [|done].
  destruct (List.find _ _) eqn:Hfind; [done|].
  apply Forall_insert; [done|].
  pose proof (Forall_lookup_1 _ _ _ _ Hcs Hown) as Hc.
  unfold noDuplicateEdges in *. simpl. rewrite map_app. simpl.
  apply NoDup_app. split; [done|]. split; [|apply NoDup_singleton].
  intros key Hkey ->%list_elem_of_singleton.
  apply list_elem_of_fmap in Hkey as (r & [= Ht Hty] & Hr).
  apply list_elem_of_In in Hr.
  pose proof (find_none _ _ Hfind r Hr) as Hno. simpl in Hno.
  rewrite <- Ht, <- Hty, String.eqb_refl, bool_decide_eq_true_2 in Hno; done.
Qed.

(** X17. Resolving the relationship mentions of a chapter never gives a
    character two edges with the same target and type, provided no character
    of the batch had such a pair before. *)
Lemma processRelationships_noDuplicateEdges cs extractedData ch :
  Forall noDuplicateEdges cs ->
  Forall noDuplicateEdges (processRelationships cs extractedData ch).
Proof.
  unfold processRelationships. generalize (characterMapOf cs) as characterMap.
  intros characterMap. revert cs.
  induction extractedData as [|e es IH]; intros cs Hcs; simpl; [done|].
  apply IH. destruct (characterMap !! _) as [owner|]; [|done].
  destruct (ex_relationships e) as [rels|]; [|done].
  clear IH. revert cs Hcs. induction rels as [|rel rels IHr]; intros cs Hcs; [done|].
  simpl. apply IHr. by apply addRelationship_noDuplicateEdges.
Qed.

(** C4 at a failing input. Every character of the sample table has edges
    that differ in target or type; Carol holds a family edge to Alice and a
    family edge to Bob. After Alice is merged into Bob, Carol's stored record
    holds two family edges to Bob. *)
Theorem mergeCharacters_repoint_duplicates_edge :
  (forall k c, characters sampleWorld !! k = Some c -> noDuplicateEdges c)
  /\ exists w' c,
       mergeCharacters "a" "b" sampleWorld = (Normal tt, w')
       /\ characters w' !! "c" = Some c
       /\ relationships c = [sampleEdge "b" family; sampleEdge "b" family]
       /\ ~ noDuplicateEdges c.
Proof.
  split.
  - intros k c Hc. apply sampleTable_lookup in Hc.
    destruct Hc as [[_ ->]|[[_ ->]|[[_ ->]|[_ ->]]]]; unfold noDuplicateEdges; simpl.
    + apply NoDup_nil_2.
    + apply NoDup_singleton.
    + apply NoDup_cons. split; [|apply NoDup_singleton].
      rewrite list_elem_of_singleton. discriminate.
    + apply NoDup_nil_2.
  - exists (setCharacters sampleWorld (mergedTable "a" "b" alice bob sampleTable)),
      (repointed "a" "b" carol).
    split; [by apply (mergeCharacters_run "a" "b" alice bob)|].
    split.
    { rewrite characters_setCharacters.
      apply mergedTable_elsewhere; try done. apply sampleTable_keyed. }
    split; [reflexivity|].
    unfold noDuplicateEdges. simpl. intros [Hnot _]%NoDup_cons.
    apply Hnot, list_elem_of_here.
Qed.

(** ** Name normalizer *)

Lemma splitWsFrom_wsFree inSep s :
  Forall (fun p => wsFree p = true) (JS.splitWsFrom inSep s).
Proof.
  revert inSep. induction s as [|a s IH]; intros inSep; simpl.
  - by repeat constructor.
  - destruct (JS.isWhiteSpace a) eqn:Ha.
    + destruct inSep; [apply IH|]. constructor; [done|apply IH].
    + specialize (IH false). destruct (JS.splitWsFrom false s) as [|p ps]; simpl.
      * repeat constructor. simpl. by rewrite Ha.
      * inversion IH; subst. constructor; [|done]. simpl. by rewrite Ha.
Qed.

Lemma splitWsFrom_token_sep p s a :
  wsFree p = true -> JS.isWhiteSpace a = true ->
  JS.splitWsFrom false (p ++ String a s) = p :: JS.splitWsFrom true s.
Proof.
  intros Hp Ha. induction p as [|b p IH]; simpl.
  - by rewrite Ha.
  - simpl in Hp. apply andb_true_iff in Hp as [Hb Hp].
    apply negb_true_iff in Hb. rewrite Hb, IH by done. done.
Qed.

Lemma splitWsFrom_token p : wsFree p = true -> JS.splitWsFrom false p = [p].
Proof.
  induction p as [|b p IH]; simpl; [done|].
  intros [Hb Hp]%andb_true_iff. apply negb_true_iff in Hb.
  by rewrite Hb, IH.
Qed.

Lemma splitWsFrom_after_sep a s :
  JS.isWhiteSpace a = false ->
  JS.splitWsFrom true (String a s) = JS.splitWsFrom false (String a s).
Proof. intros Ha. simpl. by rewrite Ha. Qed.

Lemma joinSpace_cons_token p ps :
  isToken p -> exists a s, JS.joinSpace (p :: ps) = String a s
                           /\ JS.isWhiteSpace a = false.
Proof.
  intros [Hne Hws]. destruct p as [|a p]; [done|].
  simpl in Hws. apply andb_true_iff in Hws as [Ha _]. apply negb_true_iff in Ha.
  destruct ps; simpl; eauto.
Qed.

Lemma space_isWhiteSpace : JS.isWhiteSpace " "%char = true.
Proof. reflexivity. Qed.

Lemma splitWs_joinSpace parts :
  parts <> [] -> Forall isToken parts ->
  JS.splitWs (JS.joinSpace parts) = parts.
Proof.
  unfold JS.splitWs. induction parts as [|p ps IH]; [done|].
  intros _ Hall. apply Forall_cons in Hall as [Hp Hps].
  destruct ps as [|q ps].
  - simpl. apply splitWsFrom_token, Hp.
  - change (JS.joinSpace (p :: q :: ps))
      with (p ++ String " "%char (JS.joinSpace (q :: ps))).
    rewrite splitWsFrom_token_sep by (apply Hp || apply space_isWhiteSpace).
    f_equal.
    destruct (joinSpace_cons_token q ps) as (a & s & Heq & Ha).
    { by apply Forall_cons in Hps as [? _]. }
    rewrite Heq, splitWsFrom_after_sep by done. rewrite <- Heq.
    by apply IH.
Qed.

Lemma trimEnd_app s t :
  t <> EmptyString -> JS.trimEnd t = t -> JS.trimEnd (s ++ t) = s ++ t.
Proof.
  intros Hne Ht. induction s as [|a s IH]; [exact Ht|].
  change (String a s ++ t) with (String a (s ++ t)). simpl.
  rewrite IH. destruct (s ++ t) eqn:Hst; [|done].
  destruct s; [by destruct Hne|discriminate Hst].
Qed.

Lemma trimEnd_token p : isToken p -> JS.trimEnd p = p.
Proof.
  intros [_ Hws]. induction p as [|a p IH]; [done|].
  simpl in *. apply andb_true_iff in Hws as [Ha Hp]. apply negb_true_iff in Ha.
  rewrite IH by done. destruct p; [by rewrite Ha|done].
Qed.

Lemma isToken_nonempty p : isToken p -> p <> EmptyString.
Proof. by intros [? _]. Qed.

Lemma joinSpace_nonempty p ps : isToken p -> JS.joinSpace (p :: ps) <> EmptyString.
Proof.
  intros Hp. destruct (joinSpace_cons_token p ps Hp) as (a & s & -> & _). done.
Qed.

Lemma trimEnd_joinSpace parts :
  Forall isToken parts -> JS.trimEnd (JS.joinSpace parts) = JS.joinSpace parts.
Proof.
  induction parts as [|p ps IH]; [done|].
  intros [Hp Hps]%Forall_cons. destruct ps as [|q ps].
  - by apply trimEnd_token.
  - change (JS.joinSpace (p :: q :: ps))
      with (p ++ String " "%char (JS.joinSpace (q :: ps))).
    apply trimEnd_app; [by destruct p|].
    apply (trimEnd_app (String " "%char EmptyString)).
    + apply joinSpace_nonempty. by apply Forall_cons in Hps as [? _].
    + by apply IH.
Qed.

Lemma trimStart_joinSpace parts :
  Forall isToken parts -> JS.trimStart (JS.joinSpace parts) = JS.joinSpace parts.
Proof.
  destruct parts as [|p ps]; [done|]. intros [Hp _]%Forall_cons.
  destruct (joinSpace_cons_token p ps Hp) as (a & s & -> & Ha).
  simpl. by rewrite Ha.
Qed.

Lemma filter_all {A} (P : A -> Prop) `{!forall x, Decision (P x)} (l : list A) :
  Forall P l -> filter P l = l.
Proof.
  induction 1 as [|x l Hx _ IH]; [done|].
  rewrite filter_cons_True by done. by rewrite IH.
Qed.

(** The parts that [normalizeCharacterName] joins are tokens of more than one
    code unit. *)
Lemma normalize_parts name :
  exists parts,
    normalizeCharacterName name = JS.joinSpace parts
    /\ Forall isToken parts
    /\ Forall (fun part => 1 < JS.len part) parts.
Proof.
  unfold normalizeCharacterName. eexists. split; [reflexivity|].
  split; apply Forall_forall; intros p [Hlen Hin]%list_elem_of_filter; [|done].
  split.
  - intros ->. unfold JS.len in Hlen. simpl in Hlen. lia.
  - pose proof (splitWsFrom_wsFree false
                  (JS.trim (stripSuffix (stripHonorific name)))) as Hall.
    rewrite Forall_forall in Hall. by apply Hall.
Qed.

(** C9, as stated, fails: a second pass strips the second title. *)
Lemma normalize_not_idempotent :
  normalizeCharacterName (normalizeCharacterName "Mr Dr Smith")
  <> normalizeCharacterName "Mr Dr Smith".
Proof. vm_compute. discriminate. Qed.

(** C9, amended. Normalising twice gives the same as normalising once for
    every name whose normal form is left alone by the two stripping steps:
    it does not start with a title followed by white space and does not end
    with white space followed by a generational suffix. *)
Theorem normalize_idempotent_when_stripped (x : string) :
  stripHonorific (normalizeCharacterName x) = normalizeCharacterName x ->
  stripSuffix (normalizeCharacterName x) = normalizeCharacterName x ->
  normalizeCharacterName (normalizeCharacterName x) = normalizeCharacterName x.
Proof.
  destruct (normalize_parts x) as (parts & Hy & Htok & Hlen).
  rewrite Hy. intros Hh Hs.
  unfold normalizeCharacterName at 1. rewrite Hh, Hs.
  unfold JS.trim. rewrite trimStart_joinSpace, trimEnd_joinSpace by done.
  destruct parts as [|p ps]; [reflexivity|].
  rewrite splitWs_joinSpace by done. by rewrite filter_all.
Qed.

Lemma normalize_idempotent_when_stripped_witness :
  normalizeCharacterName (normalizeCharacterName "Mrs  Jane  Q Doe Jr ")
  = normalizeCharacterName "Mrs  Jane  Q Doe Jr ".
Proof.
  apply (normalize_idempotent_when_stripped "Mrs  Jane  Q Doe Jr "); reflexivity.
Defined.

(** ** Identity resolver *)

(** C5, as stated, fails: the resolver answers with the stored John Doe. *)
Lemma jane_doe_resolves_to_john_doe :
  findSimilarCharacterNames "book1" "Jane Doe" [johnDoe] <> Normal None.
Proof. vm_compute. discriminate. Qed.

(** C5, amended. Resolving "Jane Doe" against a set that holds only a
    character named "John Doe" of the same book returns that character: the
    last tokens are equal and longer than two code units, and the first tokens
    start with the same letter. *)
Theorem jane_doe_matches_john_doe (c : Character) :
  name c = "John Doe" ->
  findSimilarCharacterNames (bookId c) "Jane Doe" [c] = Normal (Some c).
Proof.
  intros Hname. unfold findSimilarCharacterNames. simpl.
  rewrite String.eqb_refl. simpl.
  unfold similarTo. rewrite Hname. reflexivity.
Qed.

Lemma jane_doe_matches_john_doe_witness :
  findSimilarCharacterNames "book1" "Jane Doe" [johnDoe] = Normal (Some johnDoe).
Proof. apply (jane_doe_matches_john_doe johnDoe). reflexivity. Defined.

(** ** Chapter-scoped view *)

Lemma nodeMap_foldl_Some ns (acc : gmap string CharacterNode) k nd :
  foldl (fun m node => <[node_id node := node]> m) acc ns !! k = Some nd ->
  (nd ∈ ns /\ node_id nd = k) \/ acc !! k = Some nd.
Proof.
  revert acc. induction ns as [|x ns IH]; intros acc H; simpl in *; [by right|].
  apply IH in H as [[Hin Hk]|H].
  - left. split; [by apply list_elem_of_further|done].
  - apply lookup_insert_Some in H as [[<- <-]|[_ H]]; [|by right].
    left. split; [apply list_elem_of_here|done].
Qed.

Lemma nodeMap_foldl_is_Some ns (acc : gmap string CharacterNode) k :
  is_Some (acc !! k) \/ (exists nd, nd ∈ ns /\ node_id nd = k) ->
  is_Some (foldl (fun m node => <[node_id node := node]> m) acc ns !! k).
Proof.
  revert acc. induction ns as [|x ns IH]; intros acc H; simpl.
  - destruct H as [H|(nd & Hin & _)]; [done|]. by apply elem_of_nil in Hin.
  - apply IH. destruct H as [H|(nd & Hin & Hk)].
    + left. destruct (decide (node_id x = k)) as [<-|Hne].
      * rewrite lookup_insert_eq. eauto.
      * by rewrite lookup_insert_ne.
    + apply elem_of_cons in Hin as [->|Hin]; [|right; eauto].
      left. rewrite <- Hk, lookup_insert_eq. eauto.
Qed.

Lemma visibleCharacters_mono all n m c :
  n <= m -> c ∈ visibleCharacters all n -> c ∈ visibleCharacters all m.
Proof.
  unfold visibleCharacters. rewrite !list_elem_of_filter.
  intros Hnm [Hc Hin]. split; [lia|done].
Qed.

Lemma nodeMap_visible_mono all n m k :
  n <= m ->
  is_Some (nodeMapOf (map (fun character =>
              {| node_id := id character; node_character := character |})
              (visibleCharacters all n)) !! k) ->
  is_Some (nodeMapOf (map (fun character =>
              {| node_id := id character; node_character := character |})
              (visibleCharacters all m)) !! k).
Proof.
  intros Hnm [nd Hnd]. unfold nodeMapOf in *.
  apply nodeMap_foldl_Some in Hnd as [[Hin Hk]|Hnd]; [|by rewrite lookup_empty in Hnd].
  apply nodeMap_foldl_is_Some. right. exists nd. split; [|done].
  apply list_elem_of_fmap in Hin as (c & -> & Hc).
  apply list_elem_of_fmap. exists c. split; [done|].
  by eapply visibleCharacters_mono.
Qed.

(** C8. The view never shows a character that first appears after the
    cursor, and moving the cursor forward only adds: characters (of the
    service query and of the graph), graph nodes, edges and history entries
    of a character, and graph links (same edge between the same two ids). *)
Theorem chapter_view_monotone (all : list Character) (bookId' : string)
        (w : World) (n m : Z) :
  (forall c, c ∈ visibleCharacters all n -> firstAppearance c <= n /\ c ∈ all)
  /\ (forall cs, (getCharactersUpToChapter bookId' n w).1 = Normal cs ->
        forall c, c ∈ cs -> firstAppearance c <= n)
  /\ (n <= m ->
      (forall c, c ∈ visibleCharacters all n -> c ∈ visibleCharacters all m)
      /\ (forall cs cs',
            (getCharactersUpToChapter bookId' n w).1 = Normal cs ->
            (getCharactersUpToChapter bookId' m w).1 = Normal cs' ->
            forall c, c ∈ cs -> c ∈ cs')
      /\ (forall c r, r ∈ relevantRelationships c n -> r ∈ relevantRelationships c m)
      /\ (forall c h, h ∈ relevantHistory c n -> h ∈ relevantHistory c m)
      /\ (forall nd, nd ∈ nodes (prepareGraphData all n) ->
                     nd ∈ nodes (prepareGraphData all m))
      /\ (forall l, l ∈ links (prepareGraphData all n) ->
            exists l', l' ∈ links (prepareGraphData all m)
                       /\ relationship l' = relationship l
                       /\ node_id (source l') = node_id (source l)
                       /\ node_id (target l') = node_id (target l))).
Proof.
  split; [|split].
  - intros c [Hc Hin]%list_elem_of_filter. done.
  - intros cs Hcs c Hin. unfold getCharactersUpToChapter, bind in Hcs.
    simpl in Hcs. injection Hcs as <-.
    by apply list_elem_of_filter in Hin as [? _].
  - intros Hnm. repeat split.
    + intros c. by apply visibleCharacters_mono.
    + intros cs cs' Hcs Hcs' c Hin.
      unfold getCharactersUpToChapter, bind in Hcs, Hcs'. simpl in Hcs, Hcs'.
      injection Hcs as <-. injection Hcs' as <-.
      apply list_elem_of_filter in Hin as [Hc Hin].
      apply list_elem_of_filter. split; [lia|done].
    + intros c r [Hr Hin]%list_elem_of_filter.
      apply list_elem_of_filter. split; [lia|done].
    + intros c h [Hh Hin]%list_elem_of_filter.
      apply list_elem_of_filter. split; [lia|done].
    + simpl. intros nd (c & -> & Hc)%list_elem_of_fmap.
      apply list_elem_of_fmap. exists c. split; [done|].
      by eapply visibleCharacters_mono.
    + simpl. intros l (c & Hl & Hc)%list_elem_of_bind.
      apply list_elem_of_bind in Hl as (r & Hl & Hr).
      destruct (decide (establishedInChapter r <= n)) as [Hest|]; [|by apply elem_of_nil in Hl].
      destruct (nodeMapOf _ !! targetCharacterId r) as [t|] eqn:Ht;
        [|by apply elem_of_nil in Hl].
      destruct (nodeMapOf _ !! id c) as [s|] eqn:Hs; [|by apply elem_of_nil in Hl].
      apply list_elem_of_singleton in Hl as ->. simpl.
      destruct (nodeMap_visible_mono all n m (targetCharacterId r) Hnm) as [t' Ht'];
        [by rewrite Ht|].
      destruct (nodeMap_visible_mono all n m (id c) Hnm) as [s' Hs'];
        [by rewrite Hs|].
      exists {| source := s'; target := t'; relationship := r |}.
      split; [|split; [done|split]].
      * apply list_elem_of_bind. exists c.
        split; [|by eapply visibleCharacters_mono].
        apply list_elem_of_bind. exists r. split; [|done].
        rewrite decide_True by lia. rewrite Ht', Hs'. apply list_elem_of_here.
      * simpl. unfold nodeMapOf in Hs, Hs'.
        apply nodeMap_foldl_Some in Hs as [[_ ->]|Hs]; [|by rewrite lookup_empty in Hs].
        apply nodeMap_foldl_Some in Hs' as [[_ ->]|Hs']; [done|by rewrite lookup_empty in Hs'].
      * simpl. unfold nodeMapOf in Ht, Ht'.
        apply nodeMap_foldl_Some in Ht as [[_ ->]|Ht]; [|by rewrite lookup_empty in Ht].
        apply nodeMap_foldl_Some in Ht' as [[_ ->]|Ht']; [done|by rewrite lookup_empty in Ht'].
Qed.

Lemma chapter_view_monotone_witness :
  1 <= 3 /\ alice ∈ visibleCharacters sampleCast 3.
Proof.
  assert (1 <= 3) as Hle by discriminate.
  split; [exact Hle|].
  apply (proj1 (proj2 (proj2 (chapter_view_monotone
                                sampleCast "book1" sampleWorld 1 3)) Hle) alice).
  apply list_elem_of_filter. split; [discriminate|apply list_elem_of_here].
Defined.

(** ** Chapter observation processor *)

Lemma readOnly_ret {A} (a : A) : readOnly (ret a).
Proof. done. Qed.

Lemma readOnly_throw {A} e : readOnly (@throw A e).
Proof. done. Qed.

Lemma readOnly_liftC {A} (c : Completion A) : readOnly (liftC c).
Proof. done. Qed.

Lemma readOnly_bind {A B} (m : M A) (k : A -> M B) :
  readOnly m -> (forall a, readOnly (k a)) -> readOnly (bind m k).
Proof.
  intros Hm Hk w. unfold bind. specialize (Hm w).
  destruct (m w) as [[a|e] w']; simpl in *; [|done].
  by rewrite Hk.
Qed.

Lemma readOnly_tryCatch {A} (body : M A) handler :
  readOnly body -> (forall e, readOnly (handler e)) -> readOnly (tryCatch body handler).
Proof.
  intros Hm Hk w. unfold tryCatch. specialize (Hm w).
  destruct (body w) as [[a|e] w']; simpl in *; [done|].
  by rewrite Hk.
Qed.

Lemma readOnly_whereBookId b : readOnly (Table.whereBookId b).
Proof. done. Qed.

Lemma readOnly_findCharacterByName b n : readOnly (findCharacterByName b n).
Proof. done. Qed.

Lemma readOnly_createNewCharacter b e ch : readOnly (createNewCharacter b e ch).
Proof. done. Qed.

Lemma readOnly_processCandidate b ch e : readOnly (processCandidate b ch e).
Proof.
  unfold processCandidate. destruct (_ || _); [apply readOnly_ret|].
  apply readOnly_bind; [apply readOnly_whereBookId|]. intros rows.
  apply readOnly_bind; [apply readOnly_findCharacterByName|]. intros exact.
  apply readOnly_bind.
  - destruct exact; [apply readOnly_ret|].
    apply readOnly_bind; [apply readOnly_liftC|].
    intros [c|]; [|apply readOnly_ret].
    destruct (_ || _); apply readOnly_ret.
  - intros [c|]; [apply readOnly_ret|].
    apply readOnly_bind; [apply readOnly_createNewCharacter|].
    intros; apply readOnly_ret.
Qed.

Lemma readOnly_processCandidates b ch es : readOnly (processCandidates b ch es).
Proof.
  induction es as [|e es IH]; simpl; [apply readOnly_ret|].
  apply readOnly_bind; [apply readOnly_processCandidate|]. intros pushed.
  apply readOnly_bind; [apply IH|]. intros; apply readOnly_ret.
Qed.

Lemma readOnly_processGeminiResponse parse b ch text :
  readOnly (processGeminiResponse parse b ch text).
Proof.
  unfold processGeminiResponse.
  apply readOnly_tryCatch; [|intros; apply readOnly_throw].
  destruct (_ || _); [apply readOnly_throw|].
  apply readOnly_bind; [apply readOnly_liftC|].
  intros [es|]; [|apply readOnly_throw].
  apply readOnly_bind; [apply readOnly_processCandidates|].
  intros; apply readOnly_ret.
Qed.

Lemma readOnly_extractCharacters parse b ch reply :
  readOnly (extractCharacters parse b ch reply).
Proof.
  unfold extractCharacters.
  apply readOnly_tryCatch; [|intros; apply readOnly_throw].
  apply readOnly_bind; [apply readOnly_liftC|].
  intros; apply readOnly_processGeminiResponse.
Qed.

(** C2, as stated, fails. From an empty table, the candidate "Bill" creates a
    character; the rows fetched for the next candidate do not hold it, and
    the same candidate processed again creates a second character. *)
Lemma created_character_not_seen_by_later_candidate :
  exists c1 w1,
    processCandidate "book1" 1 (candidate "Bill") emptyWorld = (Normal (Some c1), w1)
    /\ name c1 = "Bill"
    /\ (getCharactersForBook "book1" w1).1 = Normal []
    /\ exists c2 w2,
         processCandidate "book1" 1 (candidate "Bill") w1 = (Normal (Some c2), w2)
         /\ id c2 <> id c1.
Proof.
  eexists _, _. split; [vm_compute; reflexivity|].
  split; [reflexivity|]. split; [reflexivity|].
  eexists _, _. split; [vm_compute; reflexivity|]. discriminate.
Qed.

(** C2, amended. Each candidate is resolved against the rows stored for the
    book, fetched anew for that candidate; nothing is stored while the batch
    is processed, so after any number of earlier candidates the fetch and the
    lookup by name return what they return before the batch, and the table
    is still the same when [extractCharacters] returns. A character created
    for an earlier candidate reaches the table only with the save that
    follows. *)
Theorem candidates_resolved_against_stored_rows
        (JSON_parse : string -> Completion (option (list ExtractedCharacterData)))
        (bookId' : string) (chapterNumber : Z)
        (earlier : list ExtractedCharacterData) (reply : Completion string)
        (w : World) :
  let w1 := (processCandidates bookId' chapterNumber earlier w).2 in
  characters w1 = characters w
  /\ (getCharactersForBook bookId' w1).1 = (getCharactersForBook bookId' w).1
  /\ (forall n, (findCharacterByName bookId' n w1).1 = (findCharacterByName bookId' n w).1)
  /\ characters (extractCharacters JSON_parse bookId' chapterNumber reply w).2
     = characters w.
Proof.
  intros w1.
  assert (characters w1 = characters w) as Hsame
    by apply readOnly_processCandidates.
  split; [done|]. split; [|split].
  - unfold getCharactersForBook, Table.whereBookId. simpl. by rewrite Hsame.
  - intros n. unfold findCharacterByName, bind, Table.whereBookId. simpl.
    by rewrite Hsame.
  - apply readOnly_extractCharacters.
Qed.

Lemma processGeminiResponse_malformed parse b ch text w :
  malformedReply parse text ->
  processGeminiResponse parse b ch text w = (Throw parseFailure, w).
Proof.
  unfold malformedReply, processGeminiResponse, tryCatch, bind, liftC, throw.
  intros [H|[H|[[e H]|H]]].
  - rewrite H. reflexivity.
  - rewrite H, orb_true_r. reflexivity.
  - destruct (_ || _); [done|]. by rewrite H.
  - destruct (_ || _); [done|]. by rewrite H.
Qed.

(** C7. When the reply of the model is malformed, the analysis of the chapter
    ends with the error "Failed to parse character data from AI response"
    and the tables are exactly as before the call. *)
Theorem malformed_reply_persists_nothing
        (JSON_parse : string -> Completion (option (list ExtractedCharacterData)))
        (bookId' : string) (currentChapter : Z) (responseText : string) (w : World) :
  malformedReply JSON_parse responseText ->
  handleAnalyzeChapter JSON_parse bookId' currentChapter (Normal responseText) w
  = (Normal (AnalysisFailed "Failed to parse character data from AI response"), w).
Proof.
  intros Hbad.
  unfold handleAnalyzeChapter, extractCharacters, tryCatch, bind, liftC.
  by rewrite processGeminiResponse_malformed.
Qed.

Lemma malformed_reply_persists_nothing_witness :
  handleAnalyzeChapter (fun _ => Throw (Error "Unexpected token"))
                       "book1" 2 (Normal "Sorry, {no characters}") sampleWorld
  = (Normal (AnalysisFailed "Failed to parse character data from AI response"),
     sampleWorld).
Proof.
  apply (malformed_reply_persists_nothing
           (fun _ => Throw (Error "Unexpected token")) "book1" 2
           "Sorry, {no characters}" sampleWorld).
  right. right. left. eexists. reflexivity.
Defined.


(** * Further properties *)

(** ** Queries of the character service *)

(** X1. [getCharactersForBook] throws nothing, writes nothing and returns
    exactly the stored characters of the book, each once. *)
Theorem getCharactersForBook_spec (b : string) (w : World) :
  keyed (characters w) ->
  exists cs,
    getCharactersForBook b w = (Normal cs, w)
    /\ (forall c, c ∈ cs <-> bookId c = b /\ characters w !! id c = Some c)
    /\ NoDup (id <$> cs).
Proof.
  intros Hk. eexists. split; [reflexivity|]. split.
  - intros c. rewrite list_elem_of_filter, elem_of_rows. split.
    + intros [Hb [k Hc]]. split; [done|]. by rewrite (Hk _ _ Hc).
    + intros [Hb Hc]. eauto.
  - by apply filter_NoDup_ids, rows_NoDup_ids.
Qed.

Lemma getCharactersForBook_spec_witness :
  exists cs,
    getCharactersForBook "book1" sampleWorld = (Normal cs, sampleWorld)
    /\ (forall c, c ∈ cs <-> bookId c = "book1" /\ characters sampleWorld !! id c = Some c)
    /\ NoDup (id <$> cs).
Proof. apply (getCharactersForBook_spec "book1" sampleWorld), sampleTable_keyed. Defined.

Lemma findCharacterByName_book b n w r w' :
  findCharacterByName b n w = (Normal r, w') ->
  w' = w /\ forall c, r = Some c -> bookId c = b.
Proof.
  unfold findCharacterByName, bind, Table.whereBookId, ret.
  intros [= <- <-]. split; [done|]. intros c Hhead.
  apply head_Some_elem_of in Hhead.
  apply list_elem_of_filter in Hhead as [_ Hc].
  by apply list_elem_of_filter in Hc as [? _].
Qed.

(** X2. [findCharacterByName] compares names without regard to case and only
    within the book: a character it returns is stored, belongs to the book
    and has the name asked for up to case; it returns nothing only when the
    book has no such character. *)
Theorem findCharacterByName_spec (b n : string) (w : World) :
  exists r,
    findCharacterByName b n w = (Normal r, w)
    /\ match r with
       | Some c =>
           bookId c = b
           /\ JS.toLowerCase (name c) = JS.toLowerCase n
           /\ exists k, characters w !! k = Some c
       | None =>
           forall k c, characters w !! k = Some c -> bookId c = b ->
                       JS.toLowerCase (name c) <> JS.toLowerCase n
       end.
Proof.
  eexists. split; [reflexivity|].
  destruct (head _) as [c|] eqn:Hhead.
  - apply head_Some_elem_of in Hhead.
    apply list_elem_of_filter in Hhead as [Hn Hc].
    apply list_elem_of_filter in Hc as [Hb Hc].
    by apply elem_of_rows in Hc.
  - apply head_None in Hhead. intros k c Hc Hb Hn.
    assert (c ∈ @nil Character) as Hin; [|by apply elem_of_nil in Hin].
    rewrite <- Hhead. apply list_elem_of_filter. split; [done|].
    apply list_elem_of_filter. split; [done|]. apply elem_of_rows. eauto.
Qed.

(** ** Further properties of the merge *)

(** X3. A merge that names a missing source or a missing target throws
    "Source or target character not found" and writes nothing. *)
Theorem mergeCharacters_not_found a b w :
  characters w !! a = None \/ characters w !! b = None ->
  mergeCharacters a b w
  = (Throw (Error "Source or target character not found"), w).
Proof.
  intros H. unfold mergeCharacters, bind, Table.get.
  destruct (characters w !! a), (characters w !! b); try done.
  by destruct H.
Qed.

Lemma mergeCharacters_not_found_witness :
  mergeCharacters "a" "zz" sampleWorld
  = (Throw (Error "Source or target character not found"), sampleWorld).
Proof. apply (mergeCharacters_not_found "a" "zz" sampleWorld). by right. Defined.

Lemma filtered_rows_id_stored (t : gmap string Character) b c :
  keyed t -> c ∈ filter (fun c => bookId c = b) (Table.rows t) ->
  t !! id c = Some c /\ bookId c = b.
Proof.
  intros Hk [Hb [k Hc]%elem_of_rows]%list_elem_of_filter.
  by rewrite (Hk _ _ Hc).
Qed.

(** X4. A merge touches nothing but the two operands and the characters of
    their book that hold an edge to the source: every other row is stored
    afterwards as it was, and no row appears under an id that was free. *)
Theorem mergeCharacters_frame a b A B w :
  keyed (characters w) ->
  characters w !! a = Some A ->
  characters w !! b = Some B ->
  bookId A = bookId B ->
  exists w',
    mergeCharacters a b w = (Normal tt, w')
    /\ (forall k C, k <> a -> k <> b -> characters w !! k = Some C ->
          bookId C <> bookId A
          \/ Forall (fun r => targetCharacterId r <> a) (relationships C) ->
          characters w' !! k = Some C)
    /\ (forall k, k <> b -> characters w !! k = None -> characters w' !! k = None).
Proof.
  intros Hk HA HB Hbook. eexists. split; [by apply mergeCharacters_run|].
  rewrite characters_setCharacters. pose proof (Hk _ _ HB) as HidB. split.
  - intros k C Hka Hkb HC Hor. unfold mergedTable.
    rewrite lookup_delete_ne, lookup_insert_ne by congruence.
    destruct (decide (bookId C = bookId A)) as [Hsame|Hother].
    + destruct Hor as [?|Hnone]; [done|].
      pose proof (Hk _ _ HC) as <-.
      rewrite foldl_repointRow_row; [| |apply list_elem_of_filter|done].
      * f_equal. apply repointed_not_updated. unfold updatedBy.
        apply not_true_is_false. intros (r & Hr & Heq)%existsb_exists.
        apply String.eqb_eq in Heq. rewrite Forall_forall in Hnone.
        apply (Hnone r); [by apply list_elem_of_In|done].
      * by apply filter_NoDup_ids, rows_NoDup_ids.
      * split; [done|]. apply elem_of_rows. eauto.
    + rewrite foldl_repointRow_other; [done|].
      intros (c & -> & Hc)%list_elem_of_fmap.
      apply filtered_rows_id_stored in Hc as [Hc Hb]; [|done]. congruence.
  - intros k Hkb Hnone. unfold mergedTable.
    destruct (decide (k = a)) as [->|Hka]; [apply lookup_delete_eq|].
    rewrite lookup_delete_ne, lookup_insert_ne by congruence.
    rewrite foldl_repointRow_other; [done|].
    intros (c & -> & Hc)%list_elem_of_fmap.
    apply filtered_rows_id_stored in Hc as [Hc Hb]; [|done]. congruence.
Qed.

Lemma mergeCharacters_frame_witness :
  exists w',
    mergeCharacters "a" "b" sampleWorld = (Normal tt, w')
    /\ (forall k C, k <> "a" -> k <> "b" -> characters sampleWorld !! k = Some C ->
          bookId C <> bookId alice
          \/ Forall (fun r => targetCharacterId r <> "a") (relationships C) ->
          characters w' !! k = Some C)
    /\ (forall k, k <> "b" -> characters sampleWorld !! k = None ->
                  characters w' !! k = None).
Proof.
  apply (mergeCharacters_frame "a" "b" alice bob sampleWorld).
  - exact sampleTable_keyed.
  - reflexivity.
  - reflexivity.
  - reflexivity.
Defined.

(** ** Writes of the character service *)

Lemma forEach_put cs w :
  forEach cs Table.put w
  = (Normal tt,
     setCharacters w (foldl (fun t c => <[id c := c]> t) (characters w) cs)).
Proof.
  revert w. induction cs as [|c cs IH]; intros w; simpl.
  - unfold ret. by rewrite setCharacters_same.
  - unfold bind, Table.put. rewrite IH. by rewrite setCharacters_twice.
Qed.

Lemma foldl_put_lookup cs (t : gmap string Character) k :
  foldl (fun t c => <[id c := c]> t) t cs !! k
  = match last (filter (fun c => id c = k) cs) with
    | Some c => Some c
    | None => t !! k
    end.
Proof.
  induction cs as [|c cs IH] using rev_ind; [done|].
  rewrite foldl_app, filter_app. simpl.
  destruct (decide (id c = k)) as [Hk|Hk].
  - rewrite (filter_cons_True _ c []), filter_nil by done.
    rewrite last_snoc. subst k. apply lookup_insert_eq.
  - rewrite (filter_cons_False _ c []), filter_nil, app_nil_r by done.
    by rewrite lookup_insert_ne.
Qed.

Lemma keyed_foldl_put cs (t : gmap string Character) :
  keyed t -> keyed (foldl (fun t c => <[id c := c]> t) t cs).
Proof.
  revert t. induction cs as [|c cs IH]; intros t Hk; [done|].
  simpl. apply IH. intros k c' [[<- <-]|[_ Hc']]%lookup_insert_Some; [done|].
  by apply Hk.
Qed.

Lemma last_filter_withBookId b k cs :
  last (filter (fun c => id c = k) (map (fun char => withBookId char b) cs))
  = (fun c => withBookId c b) <$> last (filter (fun c => id c = k) cs).
Proof.
  induction cs as [|c cs IH] using rev_ind; [done|].
  rewrite map_app, !filter_app. simpl.
  destruct (decide (id c = k)) as [Hk|Hk].
  - rewrite (filter_cons_True _ (withBookId c b) []), filter_nil by done.
    rewrite (filter_cons_True _ c []), filter_nil by done.
    by rewrite !last_snoc.
  - rewrite (filter_cons_False _ (withBookId c b) []), filter_nil by done.
    rewrite (filter_cons_False _ c []), filter_nil by done.
    by rewrite !app_nil_r.
Qed.

(** X5. [saveCharacters] throws nothing and stores every character it is
    given under its own id, with the book id replaced by the one passed; of
    several characters with one id the last is stored; all other rows are
    kept. *)
Theorem saveCharacters_spec (b : string) (cs : list Character) (w : World) :
  exists w',
    saveCharacters b cs w = (Normal tt, w')
    /\ forall k,
         characters w' !! k
         = match last (filter (fun c => id c = k) cs) with
           | Some c => Some (withBookId c b)
           | None => characters w !! k
           end.
Proof.
  eexists. split.
  { unfold saveCharacters, Table.bulkPut. apply forEach_put. }
  intros k. rewrite characters_setCharacters, foldl_put_lookup.
  rewrite last_filter_withBookId. by destruct (last _).
Qed.

(** X6. After [deleteCharactersForBook] no character of the book is stored,
    the query for the book returns nothing, and the characters of all other
    books are stored as before. *)
Theorem deleteCharactersForBook_spec (b : string) (w : World) :
  exists w',
    deleteCharactersForBook b w = (Normal tt, w')
    /\ (forall k c, characters w' !! k = Some c <->
                    characters w !! k = Some c /\ bookId c <> b)
    /\ getCharactersForBook b w' = (Normal [], w').
Proof.
  eexists. split; [reflexivity|]. rewrite characters_setCharacters.
  assert (forall k c,
             filter (fun kc : string * Character => bookId kc.2 <> b)
                    (characters w) !! k = Some c
             <-> characters w !! k = Some c /\ bookId c <> b) as Hlookup.
  { intros k c. by rewrite map_lookup_filter_Some. }
  split; [done|].
  unfold getCharactersForBook, Table.whereBookId. f_equal. f_equal.
  rewrite characters_setCharacters.
  destruct (filter _ (Table.rows _)) as [|c l] eqn:Hf; [done|].
  assert (c ∈ c :: l) as Hin by apply list_elem_of_here.
  rewrite <- Hf in Hin.
  apply list_elem_of_filter in Hin as [Hb [k Hc]%elem_of_rows].
  apply Hlookup in Hc as [_ Hne]. done.
Qed.

(** X7. The table stays keyed by id under every write of the character
    service: saving, updating, deleting a book's characters and merging
    (whether the merge succeeds or throws). *)
Theorem writes_keep_table_keyed (w : World) :
  keyed (characters w) ->
  (forall b cs, keyed (characters (saveCharacters b cs w).2))
  /\ (forall c, keyed (characters (updateCharacter c w).2))
  /\ (forall b, keyed (characters (deleteCharactersForBook b w).2))
  /\ (forall a b, keyed (characters (mergeCharacters a b w).2)).
Proof.
  intros Hk. repeat split.
  - intros b cs. unfold saveCharacters, Table.bulkPut. rewrite forEach_put.
    by apply keyed_foldl_put.
  - intros c k c' Hc'. unfold updateCharacter, Table.put in Hc'. simpl in Hc'.
    apply lookup_insert_Some in Hc' as [[<- <-]|[_ Hc']]; [done|]. by apply Hk.
  - intros b k c Hc. unfold deleteCharactersForBook in Hc. simpl in Hc.
    apply map_lookup_filter_Some in Hc as [Hc _]. by apply Hk.
  - intros a b.
    destruct (characters w !! a) as [A|] eqn:HA;
      [|by unfold mergeCharacters, bind, Table.get; rewrite HA].
    destruct (characters w !! b) as [B|] eqn:HB;
      [|by unfold mergeCharacters, bind, Table.get; rewrite HA, HB].
    destruct (decide (bookId A = bookId B)) as [Hb|Hb].
    + rewrite (mergeCharacters_run a b A B) by done.
      by apply keyed_mergedTable.
    + unfold mergeCharacters, bind, Table.get. rewrite HA, HB.
      by destruct (String.eqb_spec (bookId A) (bookId B)).
Qed.

Lemma writes_keep_table_keyed_witness :
  (forall b cs, keyed (characters (saveCharacters b cs sampleWorld).2))
  /\ (forall c, keyed (characters (updateCharacter c sampleWorld).2))
  /\ (forall b, keyed (characters (deleteCharactersForBook b sampleWorld).2))
  /\ (forall a b, keyed (characters (mergeCharacters a b sampleWorld).2)).
Proof. apply (writes_keep_table_keyed sampleWorld), sampleTable_keyed. Defined.

Lemma analyzed_history_fold (s : gset Z) hs n :
  n ∈ foldl (fun analyzed history => analyzed ∪ {[chapter history]}) s hs
  <-> n ∈ s \/ exists h, h ∈ hs /\ chapter h = n.
Proof.
  revert s. induction hs as [|h hs IH]; intros s; simpl.
  - split; [auto|]. intros [?|(h & Hh & _)]; [done|]. by apply elem_of_nil in Hh.
  - rewrite IH, elem_of_union, elem_of_singleton. split.
    + intros [[?| ->]|(h' & Hh' & <-)]; [by left|right ..].
      * exists h. split; [apply list_elem_of_here|done].
      * exists h'. split; [by apply list_elem_of_further|done].
    + intros [?|(h' & Hh' & <-)]; [by left; left|].
      apply elem_of_cons in Hh' as [->|Hh']; [by left; right|].
      right. eauto.
Qed.

Lemma analyzed_characters_fold (s : gset Z) cs n :
  n ∈ foldl (fun analyzedChapters character =>
               foldl (fun analyzed history => analyzed ∪ {[chapter history]})
                     (analyzedChapters ∪ {[firstAppearance character]})
                     (chapterHistory character))
            s cs
  <-> n ∈ s
      \/ exists c, c ∈ cs
                   /\ (firstAppearance c = n
                       \/ exists h, h ∈ chapterHistory c /\ chapter h = n).
Proof.
  revert s. induction cs as [|c cs IH]; intros s; simpl.
  - split; [auto|]. intros [?|(c & Hc & _)]; [done|]. by apply elem_of_nil in Hc.
  - rewrite IH, analyzed_history_fold, elem_of_union, elem_of_singleton. split.
    + intros [[[?| ->]|Hh]|(c' & Hc' & H)]; [by left|right ..].
      * exists c. split; [apply list_elem_of_here|by left].
      * exists c. split; [apply list_elem_of_here|by right].
      * exists c'. split; [by apply list_elem_of_further|done].
    + intros [?|(c' & Hc' & H)]; [by left; left; left|].
      apply elem_of_cons in Hc' as [->|Hc']; [|right; eauto].
      left. destruct H as [<-|H]; [left; by right|by right].
Qed.

(** X8. A chapter counts as analyzed for a book exactly when it is the first
    appearance of a stored character of the book or the chapter of one of
    that character's history entries. *)
Theorem getAnalyzedChapters_spec (b : string) (w : World) :
  exists analyzed,
    getAnalyzedChapters b w = (Normal analyzed, w)
    /\ forall n,
         n ∈ analyzed <->
         exists k c, characters w !! k = Some c /\ bookId c = b
                     /\ (firstAppearance c = n
                         \/ exists h, h ∈ chapterHistory c /\ chapter h = n).
Proof.
  eexists. split; [reflexivity|]. intros n.
  rewrite analyzed_characters_fold. split.
  - intros [Hn|(c & Hc & H)]; [by apply not_elem_of_empty in Hn|].
    apply list_elem_of_filter in Hc as [Hb [k Hc]%elem_of_rows]. eauto.
  - intros (k & c & Hc & Hb & H). right. exists c. split; [|done].
    apply list_elem_of_filter. split; [done|]. apply elem_of_rows. eauto.
Qed.

(** ** The merged record *)

Lemma insertByChapter_Permutation h l : insertByChapter h l ≡ₚ h :: l.
Proof.
  induction l as [|x l IH]; simpl; [done|].
  destruct (chapter h <=? chapter x); [done|].
  rewrite IH. apply Permutation_swap.
Qed.

Lemma sortByChapter_Permutation l : sortByChapter l ≡ₚ l.
Proof.
  induction l as [|h l IH]; simpl; [done|].
  unfold sortByChapter in *. simpl. by rewrite insertByChapter_Permutation, IH.
Qed.

Lemma insertByChapter_sorted h l :
  StronglySorted (fun x y => chapter x <= chapter y) l ->
  StronglySorted (fun x y => chapter x <= chapter y) (insertByChapter h l).
Proof.
  induction 1 as [|x l Hl IH Hx]; simpl.
  - repeat constructor.
  - destruct (Z.leb_spec (chapter h) (chapter x)) as [Hle|Hgt].
    + constructor; [by constructor|]. constructor; [done|].
      eapply Forall_impl; [exact Hx|]. simpl. intros; lia.
    + constructor; [done|].
      rewrite insertByChapter_Permutation. constructor; [lia|done].
Qed.

Lemma sortByChapter_sorted l :
  StronglySorted (fun x y => chapter x <= chapter y) (sortByChapter l).
Proof.
  induction l as [|h l IH]; [constructor|].
  unfold sortByChapter in *. simpl. by apply insertByChapter_sorted.
Qed.

Lemma elem_of_List_filter {A} (f : A -> bool) l x :
  x ∈ List.filter f l <-> x ∈ l /\ f x = true.
Proof. by rewrite !list_elem_of_In, filter_In. Qed.



Lemma indexOf_in_prefix pre l x :
  x ∈ pre -> 0 <= indexOf (pre ++ l) x < Z.of_nat (length pre).
Proof.
  induction pre as [|y pre IH]; intros Hx; [by apply elem_of_nil in Hx|].
  simpl. destruct (String.eqb_spec y x) as [->|Hne]; [lia|].
  apply elem_of_cons in Hx as [->|Hx]; [done|].
  specialize (IH Hx). destruct (Z.ltb_spec (indexOf (pre ++ l) x) 0); lia.
Qed.

Lemma keepFirstFrom_sound pre rest y :
  y ∈ keepFirstFrom (pre ++ rest) (Z.of_nat (length pre)) rest ->
  y ∈ rest /\ y ∉ pre.
Proof.
  revert pre. induction rest as [|x rest IH]; intros pre; simpl.
  - intros H. by apply elem_of_nil in H.
  - assert (y ∈ keepFirstFrom (pre ++ x :: rest)
                  (Z.of_nat (length pre) + 1) rest ->
            y ∈ rest /\ y ∉ (pre ++ [x])%list) as Hrec.
    { specialize (IH (pre ++ [x])%list).
      rewrite <- app_assoc, length_app in IH. simpl in IH.
      by replace (Z.of_nat (length pre + 1)) with (Z.of_nat (length pre) + 1) in IH by lia. }
    destruct (Z.eqb_spec (indexOf (pre ++ x :: rest) x) (Z.of_nat (length pre)))
      as [Heq|Hne].
    + assert (x ∉ pre) as Hx.
      { intros Hin. pose proof (indexOf_in_prefix pre (x :: rest) x Hin). lia. }
      intros [->|Hy]%elem_of_cons; [split; [apply list_elem_of_here|done]|].
      apply Hrec in Hy as [Hy Hn]. split; [by apply list_elem_of_further|].
      intros ?. apply Hn, elem_of_app. by left.
    + intros Hy. apply Hrec in Hy as [Hy Hn]. split; [by apply list_elem_of_further|].
      intros ?. apply Hn, elem_of_app. by left.
Qed.

Lemma keepFirstFrom_NoDup pre rest :
  NoDup (keepFirstFrom (pre ++ rest) (Z.of_nat (length pre)) rest).
Proof.
  revert pre. induction rest as [|x rest IH]; intros pre; simpl; [apply NoDup_nil_2|].
  assert (NoDup (keepFirstFrom (pre ++ x :: rest) (Z.of_nat (length pre) + 1) rest)
          /\ x ∉ keepFirstFrom (pre ++ x :: rest) (Z.of_nat (length pre) + 1) rest)
    as [Hnd Hx].
  { specialize (IH (pre ++ [x])%list).
    pose proof (keepFirstFrom_sound (pre ++ [x])%list rest x) as Hs.
    rewrite <- app_assoc, length_app in IH, Hs. simpl in IH, Hs.
    replace (Z.of_nat (length pre + 1)) with (Z.of_nat (length pre) + 1) in IH, Hs by lia.
    split; [done|]. intros Hin. apply Hs in Hin as [_ Hn].
    apply Hn, elem_of_app. right. apply list_elem_of_here. }
  destruct (_ =? _); [|done]. by apply NoDup_cons.
Qed.

(** X10. The aliases of a merged record hold no name twice, and they are
    exactly the aliases of the target, the name of the source and the aliases
    of the source. *)
Theorem mergedCharacter_aliases (A B : Character) :
  exists names,
    aliases (mergedCharacter A B) = Some names
    /\ NoDup names
    /\ forall x, x ∈ names <->
                 x ∈ default [] (aliases B) \/ x = name A
                 \/ x ∈ default [] (aliases A).
Proof.
  eexists. split; [reflexivity|]. split.
  - apply (keepFirstFrom_NoDup []).
  - intros x. rewrite <- elem_of_cons, <- elem_of_app. split.
    + intros Hx. by apply (keepFirstFrom_sound []) in Hx as [? _].
    + apply keepFirstOccurrences_elem.
Qed.

(** X11. Merging a source that holds an edge to the target leaves the target
    with an edge that points to itself, unless the target already held an
    edge of that type to itself. *)
Theorem mergeCharacters_makes_self_edge a b A B r w :
  keyed (characters w) ->
  characters w !! a = Some A ->
  characters w !! b = Some B ->
  a <> b ->
  bookId A = bookId B ->
  r ∈ relationships A ->
  targetCharacterId r = b ->
  (forall r', r' ∈ relationships B ->
              ~ (targetCharacterId r' = b /\ type r' = type r)) ->
  exists w' B',
    mergeCharacters a b w = (Normal tt, w')
    /\ characters w' !! b = Some B'
    /\ r ∈ relationships B'
    /\ targetCharacterId r = id B'.
Proof.
  intros Hk HA HB Hab Hbook Hr Ht Hfree.
  exists (setCharacters w (mergedTable a b A B (characters w))), (mergedCharacter A B).
  rewrite characters_setCharacters. pose proof (Hk _ _ HB) as HidB.
  split; [by apply mergeCharacters_run|].
  split; [by apply mergedTable_target|].
  split; [|by rewrite Ht].
  simpl. apply elem_of_app. right. apply elem_of_List_filter. split; [done|].
  apply negb_true_iff, not_true_is_false.
  intros (r' & Hr' & Hsame)%existsb_exists.
  apply sameEdge_true in Hsame. injection Hsame as Htgt Hty.
  apply (Hfree r'); [by apply list_elem_of_In|]. split; congruence.
Qed.

Lemma mergeCharacters_makes_self_edge_witness :
  exists w' B',
    mergeCharacters "x" "y" pairWorld = (Normal tt, w')
    /\ characters w' !! "y" = Some B'
    /\ sampleEdge "y" friendship ∈ relationships B'
    /\ targetCharacterId (sampleEdge "y" friendship) = id B'.
Proof.
  apply (mergeCharacters_makes_self_edge
           "x" "y" xavier yvonne (sampleEdge "y" friendship) pairWorld).
  - intros k c. unfold pairWorld, worldOf, pairTable. simpl.
    rewrite !lookup_insert_Some, lookup_empty.
    intros [[<- <-]|[_ [[<- <-]|[_ ?]]]]; done.
  - reflexivity.
  - reflexivity.
  - discriminate.
  - reflexivity.
  - apply list_elem_of_here.
  - reflexivity.
  - intros r' ->%list_elem_of_singleton [Hx _]. discriminate Hx.
Defined.

(** ** Further properties of the resolver *)

Lemma findSimilarLoop_sound b tn tp l c :
  findSimilarLoop b tn tp l = Normal (Some c) -> c ∈ l /\ bookId c = b.
Proof.
  induction l as [|x l IH]; simpl; [done|].
  destruct (String.eqb_spec (bookId x) b) as [Hb|Hb]; simpl.
  - destruct (similarTo tn tp x) as [[]|]; simpl; [| |done].
    + intros [= ->]. split; [apply list_elem_of_here|done].
    + intros [Hc ?]%IH. split; [by apply list_elem_of_further|done].
  - intros [Hc ?]%IH. split; [by apply list_elem_of_further|done].
Qed.

Lemma findSimilarLoop_filter b tn tp l :
  findSimilarLoop b tn tp l
  = findSimilarLoop b tn tp (filter (fun c => bookId c = b) l).
Proof.
  induction l as [|x l IH]; simpl; [done|].
  destruct (String.eqb_spec (bookId x) b) as [Hb|Hb]; simpl.
  - rewrite filter_cons_True by done. simpl.
    rewrite (proj2 (String.eqb_eq _ _) Hb). simpl. by rewrite IH.
  - by rewrite filter_cons_False.
Qed.

(** X12. The resolver only ever answers with a character of the list it was
    given that belongs to the book asked for, and the characters of other
    books in the list have no influence on its answer (be it a character,
    none, or an exception). *)
Theorem findSimilarCharacterNames_scoped (b n : string) (l : list Character) :
  (forall c, findSimilarCharacterNames b n l = Normal (Some c) ->
             c ∈ l /\ bookId c = b)
  /\ findSimilarCharacterNames b n l
     = findSimilarCharacterNames b n (filter (fun c => bookId c = b) l).
Proof.
  split.
  - intros c. apply findSimilarLoop_sound.
  - apply findSimilarLoop_filter.
Qed.

(** X13. When the first character of the book in the list has the same
    normal form as the candidate, up to case, the resolver returns that
    character, whatever follows in the list. *)
Theorem findSimilarCharacterNames_exact (b n : string) (l : list Character) c :
  head (filter (fun x => bookId x = b) l) = Some c ->
  JS.toLowerCase (normalizeCharacterName n)
  = JS.toLowerCase (normalizeCharacterName (name c)) ->
  findSimilarCharacterNames b n l = Normal (Some c).
Proof.
  intros Hhead Heq. unfold findSimilarCharacterNames.
  rewrite findSimilarLoop_filter.
  destruct (filter _ l) as [|x rest] eqn:Hf; [done|]. injection Hhead as ->.
  assert (bookId c = b) as Hb.
  { assert (c ∈ filter (fun x => bookId x = b) l) as Hin
      by (rewrite Hf; apply list_elem_of_here).
    by apply list_elem_of_filter in Hin as [? _]. }
  simpl. rewrite (proj2 (String.eqb_eq _ _) Hb). simpl.
  unfold similarTo. rewrite Heq, String.eqb_refl. reflexivity.
Qed.

Lemma findSimilarCharacterNames_exact_witness :
  findSimilarCharacterNames "book1" "dr  JOHN doe jr" [dave; johnDoe; alice]
  = Normal (Some johnDoe).
Proof.
  apply (findSimilarCharacterNames_exact "book1" "dr  JOHN doe jr"
           [dave; johnDoe; alice] johnDoe); reflexivity.
Defined.

(** X14. A candidate whose normal form is a single token of more than two
    code units matches the first character of the book whose normal form has
    several tokens, one of them that token. *)
Theorem findSimilarCharacterNames_single_token (b n : string)
        (l : list Character) c (t : string) :
  head (filter (fun x => bookId x = b) l) = Some c ->
  JS.splitSpace (JS.toLowerCase (normalizeCharacterName n)) = [t] ->
  2 < JS.len t ->
  (1 < length (JS.splitSpace (JS.toLowerCase (normalizeCharacterName (name c)))))%nat ->
  t ∈ JS.splitSpace (JS.toLowerCase (normalizeCharacterName (name c))) ->
  findSimilarCharacterNames b n l = Normal (Some c).
Proof.
  intros Hhead Ht Hlen Hparts Hin. unfold findSimilarCharacterNames.
  rewrite findSimilarLoop_filter.
  destruct (filter _ l) as [|x rest] eqn:Hf; [done|]. injection Hhead as ->.
  assert (bookId c = b) as Hb.
  { assert (c ∈ filter (fun x => bookId x = b) l) as Hin'
      by (rewrite Hf; apply list_elem_of_here).
    by apply list_elem_of_filter in Hin' as [? _]. }
  simpl. rewrite (proj2 (String.eqb_eq _ _) Hb). simpl.
  unfold similarTo. destruct (String.eqb _ _); [done|].
  rewrite Ht. simpl.
  assert (includes (JS.splitSpace (JS.toLowerCase (normalizeCharacterName (name c)))) t
          = true) as ->.
  { unfold includes. apply existsb_exists. exists t.
    split; [by apply list_elem_of_In|apply String.eqb_refl]. }
  rewrite (proj2 (Z.ltb_lt _ _) Hlen).
  rewrite (proj2 (Z.ltb_lt 1 _)) by lia. reflexivity.
Qed.

Lemma findSimilarCharacterNames_single_token_witness :
  findSimilarCharacterNames "book1" "Mr John" [johnDoe] = Normal (Some johnDoe).
Proof.
  apply (findSimilarCharacterNames_single_token "book1" "Mr John" [johnDoe]
           johnDoe "john"); try reflexivity.
  - simpl. lia.
  - apply list_elem_of_here.
Defined.

(** ** Updates of a character by an observation *)

(** X15. An observation of an existing character counts one more mention
    in the given chapter and keeps identity, name, first appearance, edges
    and aliases. It never lowers the relevance, never sets a known status
    back to Unknown and never loses a known occupation, age or location; the
    history only grows, by at most one entry, which is for the given chapter
    and is not empty. *)
Theorem updateExistingCharacter_spec (c : Character) (e : ExtractedCharacterData)
        (ch : Z) :
  let u := updateExistingCharacter c e ch in
  (id u = id c /\ bookId u = bookId c /\ name u = name c
   /\ firstAppearance u = firstAppearance c
   /\ relationships u = relationships c /\ aliases u = aliases c)
  /\ mentionCount u = mentionCount c + 1
  /\ lastMentioned u = ch
  /\ relevanceOrder (relevance c) <= relevanceOrder (relevance u)
  /\ (status c <> Unknown -> status u <> Unknown)
  /\ (informative (occupation u) = None -> informative (occupation c) = None)
  /\ (informative (age u) = None -> informative (age c) = None)
  /\ (informative (location u) = None -> informative (location c) = None)
  /\ exists added,
       chapterHistory u = (chapterHistory c ++ added)%list
       /\ (length added <= 1)%nat
       /\ Forall (fun h => chapter h = ch /\ updates h <> []) added.
Proof.
  assert (forall o s, informative o = Some s -> informative (Some s) = Some s) as Hinf.
  { intros o s. unfold informative, truthy. destruct o as [x|]; [|done].
    destruct (String.eqb x EmptyString) eqn:E1; [done|].
    destruct (String.eqb x "Unknown") eqn:E2; [done|].
    intros [= <-]. by rewrite E1, E2. }
  simpl. split; [done|]. split; [done|]. split; [done|]. split.
  { destruct (ex_relevance e) as [r|]; [|lia].
    destruct (Z.ltb_spec (relevanceOrder (relevance c)) (relevanceOrder r)); lia. }
  split.
  { intros Hs. destruct (ex_status e) as [[]|]; done. }
  split.
  { destruct (informative (ex_occupation e)) as [o|] eqn:E; [|done].
    by rewrite (Hinf _ _ E). }
  split.
  { destruct (informative (ex_age e)) as [o|] eqn:E; [|done].
    by rewrite (Hinf _ _ E). }
  split.
  { destruct (informative (ex_location e)) as [o|] eqn:E; [|done].
    by rewrite (Hinf _ _ E). }
  destruct (_ ++ _)%list as [|x l] eqn:Hupd.
  - exists []. rewrite app_nil_r. split; [done|]. split; [simpl; lia|constructor].
  - eexists [_]. split; [reflexivity|]. split; [simpl; lia|].
    constructor; [|constructor]. simpl. by split.
Qed.

(** ** Relationship resolution *)

Lemma extendedBy_refl ch (ids : list string) cs :
  Forall2 (extendedBy ch ids) cs cs.
Proof.
  induction cs as [|c cs IH]; constructor; [|done].
  split; [by rewrite withRelationships_same|].
  exists []. by rewrite app_nil_r.
Qed.

Lemma addRelationship_frame characterMap ch owner cs0 cs rel :
  Forall2 (extendedBy ch (id <$> cs0)) cs0 cs ->
  Forall2 (extendedBy ch (id <$> cs0)) cs0
          (addRelationship characterMap ch owner cs rel).
Proof.
  intros H. unfold addRelationship.
  destruct (characterMap !! _) as [targetIndex|]; [|done].
  destruct (cs !! owner) as [character|] eqn:Hown; [|done].
  destruct (cs !! targetIndex) as [targetCharacter|] eqn:Htgt; [|done].
  destruct (List.find _ _); [done|].
  destruct (Forall2_lookup_r _ _ _ _ _ H Hown) as (c0 & Hc0 & Heq & added & Hrels & Hadded).
  destruct (Forall2_lookup_r _ _ _ _ _ H Htgt) as (t0 & Ht0 & Hteq & _).
  assert (extendedBy ch (id <$> cs0) c0
            (withRelationships character
               (relationships character
                ++ [ {| targetCharacterId := id targetCharacter;
                        type := ex_type rel;
                        description := ex_description rel;
                        establishedInChapter := ch |} ])%list)) as Hnew;
    [|pose proof (Forall2_insert _ _ _ _ _ owner H Hnew) as Hins;
      by rewrite list_insert_id in Hins].
  split.
  - rewrite Heq. reflexivity.
  - exists (added ++ [ {| targetCharacterId := id targetCharacter;
                          type := ex_type rel;
                          description := ex_description rel;
                          establishedInChapter := ch |} ])%list.
    split; [by rewrite Hrels, app_assoc|].
    apply Forall_app. split; [done|]. constructor; [|done]. simpl. split; [done|].
    rewrite Hteq. simpl. apply list_elem_of_fmap. exists t0.
    split; [done|]. by eapply list_elem_of_lookup_2.
Qed.

(** X16. Resolving the relationship mentions of a chapter changes nothing
    but edges: the list keeps its length and order, every character keeps all
    its other fields and its earlier edges, in order, and every edge that is
    added is established in the chapter processed and points to the id of a
    character of the same batch. *)
Theorem processRelationships_frame (cs : list Character)
        (extractedData : list ExtractedCharacterData) (ch : Z) :
  Forall2 (extendedBy ch (id <$> cs)) cs (processRelationships cs extractedData ch).
Proof.
  unfold processRelationships. generalize (characterMapOf cs) as characterMap.
  intros characterMap.
  assert (forall cur, Forall2 (extendedBy ch (id <$> cs)) cs cur ->
            Forall2 (extendedBy ch (id <$> cs)) cs
              (foldl (fun cs extractedChar =>
                        match characterMap !! JS.toLowerCase (ex_name extractedChar),
                              ex_relationships extractedChar with
                        | Some owner, Some rels =>
                            foldl (addRelationship characterMap ch owner) cs rels
                        | _, _ => cs
                        end) cur extractedData)) as Hfold.
  { induction extractedData as [|e es IH]; intros cur Hcur; simpl; [done|].
    apply IH. destruct (characterMap !! _) as [owner|]; [|done].
    destruct (ex_relationships e) as [rels|]; [|done].
    clear IH. revert cur Hcur.
    induction rels as [|rel rels IHr]; intros cur Hcur; [done|].
    simpl. apply IHr. by apply addRelationship_frame. }
  apply Hfold, extendedBy_refl.
Qed.

Lemma addRelationship_fields characterMap ch owner cs0 cs rel :
  Forall2 (fun c c' => c' = withRelationships c (relationships c')) cs0 cs ->
  Forall2 (fun c c' => c' = withRelationships c (relationships c')) cs0
          (addRelationship characterMap ch owner cs rel).
Proof.
  intros H. unfold addRelationship.
  destruct (characterMap !! _) as [targetIndex|]; [|done].
  destruct (cs !! owner) as [character|] eqn:Hown; [|done].
  destruct (cs !! targetIndex) as [targetCharacter|]; [|done].
  destruct (List.find _ _); [done|].
  destruct (Forall2_lookup_r _ _ _ _ _ H Hown) as (c0 & Hc0 & Heq).
  match goal with
  | |- Forall2 ?P _ (<[_ := ?c']> _) =>
      assert (P c0 c') as Hnew by (simpl; rewrite Heq; reflexivity);
      pose proof (Forall2_insert _ _ _ _ _ owner H Hnew) as Hins
  end.
  by rewrite list_insert_id in Hins.
Qed.

Lemma processRelationships_fields cs extractedData ch :
  Forall2 (fun c c' => c' = withRelationships c (relationships c'))
          cs (processRelationships cs extractedData ch).
Proof.
  unfold processRelationships. generalize (characterMapOf cs) as characterMap.
  intros characterMap.
  assert (Forall2 (fun c c' => c' = withRelationships c (relationships c')) cs cs)
    as Hrefl.
  { clear. induction cs; constructor; [by rewrite withRelationships_same|done]. }
  revert Hrefl. generalize cs at 2 4 as cur.
  induction extractedData as [|e es IH]; intros cur Hcur; simpl; [done|].
  apply IH. destruct (characterMap !! _) as [owner|]; [|done].
  destruct (ex_relationships e) as [rels|]; [|done].
  clear IH. revert cur Hcur.
  induction rels as [|rel rels IHr]; intros cur Hcur; [done|].
  simpl. apply IHr. by apply addRelationship_fields.
Qed.

Lemma processRelationships_noDuplicateEdges_witness :
  Forall noDuplicateEdges
         (processRelationships
            [xavier; yvonne]
            [ {| ex_name := "Xavier"; ex_occupation := None; ex_age := None;
                 ex_location := None; ex_status := None; ex_relevance := None;
                 ex_briefDescription := None;
                 ex_relationships :=
                   Some [ {| targetName := "yvonne"; ex_type := friendship;
                             ex_description := "friends" |};
                          {| targetName := "Yvonne"; ex_type := conflict;
                             ex_description := "quarrel" |} ] |} ]
            4).
Proof.
  apply processRelationships_noDuplicateEdges.
  apply Forall_cons. split; [|apply Forall_cons; split; [|apply Forall_nil_2]];
    unfold noDuplicateEdges; simpl; apply NoDup_singleton.
Defined.

Lemma mergedCharacter_noDuplicateEdges_witness :
  noDuplicateEdges (mergedCharacter xavier yvonne).
Proof.
  apply mergedCharacter_noDuplicateEdges;
    unfold noDuplicateEdges; simpl; apply NoDup_singleton.
Defined.

(** ** The batch of a chapter *)

Lemma trim_empty_name n :
  String.eqb n EmptyString || String.eqb (JS.trim n) EmptyString
  = bool_decide (JS.trim n = EmptyString).
Proof.
  destruct (String.eqb_spec n EmptyString) as [->|_]; simpl; [done|].
  destruct (String.eqb_spec (JS.trim n) EmptyString) as [->|Hne]; [done|].
  by rewrite bool_decide_eq_false_2.
Qed.

Lemma processCandidate_result b ch e w r w' :
  processCandidate b ch e w = (Normal r, w') ->
  characters w' = characters w
  /\ (JS.trim (ex_name e) = EmptyString -> r = None)
  /\ (JS.trim (ex_name e) <> EmptyString ->
      exists c, r = Some c /\ bookId c = b /\ lastMentioned c = ch).
Proof.
  intros Hrun.
  split; [by rewrite <- (readOnly_processCandidate b ch e w), Hrun|].
  unfold processCandidate in Hrun. rewrite trim_empty_name in Hrun.
  destruct (decide (JS.trim (ex_name e) = EmptyString)) as [Hblank|Hname].
  { rewrite bool_decide_eq_true_2 in Hrun by done. injection Hrun as <- <-.
    split; [done|]. by intros []. }
  rewrite bool_decide_eq_false_2 in Hrun by done.
  split; [done|]. intros _.
  unfold bind, getCharactersForBook, Table.whereBookId in Hrun.
  cbv beta iota in Hrun.
  destruct (findCharacterByName b (ex_name e) w) as [[exact|] w1] eqn:Hfind;
    [|done].
  apply findCharacterByName_book in Hfind as [-> Hexact]. destruct exact as [c|].
  - injection Hrun as <- <-. pose proof (Hexact c eq_refl). eauto.
  - unfold liftC in Hrun.
    destruct (findSimilarCharacterNames _ _ _) as [[c|]|] eqn:Hsim; [| |done].
    + apply findSimilarLoop_sound in Hsim as [_ Hb].
      destruct (_ || _); injection Hrun as <- <-; eauto.
    + simpl in Hrun. injection Hrun as <- <-. eauto.
Qed.

(** X19. When the candidates of a chapter are processed without an
    exception, there is one resulting character for every candidate whose
    name is not blank and none for the others, every resulting character
    belongs to the book and is last mentioned in the chapter processed, and
    the table is as before. *)
Theorem processCandidates_shape b ch es w cs w' :
  processCandidates b ch es w = (Normal cs, w') ->
  length cs = length (filter (fun e => JS.trim (ex_name e) <> EmptyString) es)
  /\ Forall (fun c => bookId c = b /\ lastMentioned c = ch) cs
  /\ characters w' = characters w.
Proof.
  revert w cs w'. induction es as [|e es IH]; intros w cs w' Hrun; simpl in Hrun.
  - by injection Hrun as <- <-.
  - unfold bind in Hrun.
    destruct (processCandidate b ch e w) as [[r|] w1] eqn:H1; [|done].
    destruct (processCandidates b ch es w1) as [[others|] w2] eqn:H2; [|done].
    injection Hrun as <- <-.
    apply processCandidate_result in H1 as (Hw1 & Hblank & Hname).
    apply IH in H2 as (Hlen & Hall & Hw2).
    split; [|split; [|congruence]].
    + rewrite length_app, Hlen.
      destruct (decide (JS.trim (ex_name e) = EmptyString)) as [Hb|Hn].
      * rewrite (Hblank Hb), filter_cons_False by (by intros []). done.
      * destruct (Hname Hn) as (c & -> & _). by rewrite filter_cons_True.
    + apply Forall_app. split; [|done].
      destruct (decide (JS.trim (ex_name e) = EmptyString)) as [Hb|Hn].
      * rewrite (Hblank Hb). constructor.
      * destruct (Hname Hn) as (c & -> & ? & ?). by repeat constructor.
Qed.

Lemma processCandidates_shape_witness :
  exists cs w',
    processCandidates "book1" 1 [candidate "Bill"; candidate "  "; candidate "Mary"]
                      emptyWorld = (Normal cs, w')
    /\ length cs = 2%nat
    /\ Forall (fun c => bookId c = "book1" /\ lastMentioned c = 1) cs
    /\ characters w' = characters emptyWorld.
Proof.
  eexists _, _. split; [vm_compute; reflexivity|].
  eapply (processCandidates_shape "book1" 1
            [candidate "Bill"; candidate "  "; candidate "Mary"] emptyWorld).
  vm_compute. reflexivity.
Defined.

Lemma processCandidates_bookId b ch es w cs w' :
  processCandidates b ch es w = (Normal cs, w') ->
  Forall (fun c => bookId c = b) cs.
Proof.
  revert w cs w'. induction es as [|e es IH]; intros w cs w' Hrun; simpl in Hrun.
  - injection Hrun as <- <-. constructor.
  - unfold bind in Hrun.
    destruct (processCandidate b ch e w) as [[r|] w1] eqn:H1; [|done].
    destruct (processCandidates b ch es w1) as [[others|] w2] eqn:H2; [|done].
    injection Hrun as <- <-.
    apply processCandidate_result in H1 as (_ & Hblank & Hname).
    apply Forall_app. split; [|by eapply IH].
    destruct (decide (JS.trim (ex_name e) = EmptyString)) as [Hb|Hn].
    + rewrite (Hblank Hb). constructor.
    + destruct (Hname Hn) as (c & -> & ? & _). by repeat constructor.
Qed.

Lemma withBookId_same c : withBookId c (bookId c) = c.
Proof. by destruct c. Qed.

Lemma extractCharacters_result parse b ch reply w cs w' :
  extractCharacters parse b ch reply w = (Normal cs, w') ->
  exists es cs0,
    processCandidates b ch es w = (Normal cs0, w')
    /\ cs = processRelationships cs0 es ch.
Proof.
  unfold extractCharacters, tryCatch, bind, liftC, throw.
  destruct reply as [text|]; [|done].
  unfold processGeminiResponse, tryCatch, bind, liftC, throw.
  destruct (_ || _); [done|].
  destruct (parse _) as [[es|]|]; [|done..].
  destruct (processCandidates b ch es w) as [[cs0|] w1] eqn:Hrun; [|done].
  unfold ret. intros [= <- <-]. eauto.
Qed.

Lemma extractCharacters_bookId parse b ch reply w cs w' :
  extractCharacters parse b ch reply w = (Normal cs, w') ->
  Forall (fun c => bookId c = b) cs.
Proof.
  intros (es & cs0 & Hrun & ->)%extractCharacters_result.
  apply processCandidates_bookId in Hrun as Hall. clear Hrun.
  pose proof (processRelationships_fields cs0 es ch) as Hframe.
  generalize dependent (processRelationships cs0 es ch). intros cs Hframe.
  revert Hall. induction Hframe as [|c c' l l' Hc _ IH]; intros Hall; [constructor|].
  apply Forall_cons in Hall as [Hb Hall].
  constructor; [|by apply IH]. rewrite Hc. done.
Qed.

(** X20. The analysis of a chapter never throws. When it fails, whatever the
    reason, the table is as before; when it completes, every character it
    reports belongs to the book and is stored exactly as reported under its
    id (of several reported characters with one id the last one), and all
    other rows are as before. *)
Theorem handleAnalyzeChapter_outcome
        (JSON_parse : string -> Completion (option (list ExtractedCharacterData)))
        (b : string) (ch : Z) (reply : Completion string) (w : World) :
  exists outcome w',
    handleAnalyzeChapter JSON_parse b ch reply w = (Normal outcome, w')
    /\ match outcome with
       | AnalysisFailed _ => characters w' = characters w
       | AnalysisComplete cs =>
           Forall (fun c => bookId c = b) cs
           /\ forall k,
                characters w' !! k
                = match last (filter (fun c => id c = k) cs) with
                  | Some c => Some c
                  | None => characters w !! k
                  end
       end.
Proof.
  unfold handleAnalyzeChapter, tryCatch, bind.
  destruct (extractCharacters JSON_parse b ch reply w) as [[cs|e] w1] eqn:Hrun.
  - pose proof (readOnly_extractCharacters JSON_parse b ch reply w) as Hsame.
    rewrite Hrun in Hsame. simpl in Hsame.
    pose proof (extractCharacters_bookId _ _ _ _ _ _ _ Hrun) as Hbook.
    unfold saveCharacters, Table.bulkPut. rewrite forEach_put.
    eexists _, _. split; [reflexivity|]. split; [done|].
    intros k. rewrite characters_setCharacters, foldl_put_lookup.
    rewrite last_filter_withBookId, Hsame.
    destruct (last _) as [c|] eqn:Hlast; [|done]. simpl. f_equal.
    apply last_Some_elem_of, list_elem_of_filter in Hlast as [_ Hc].
    rewrite Forall_forall in Hbook. rewrite <- (Hbook c Hc).
    by rewrite withBookId_same.
  - eexists _, _. split; [reflexivity|].
    pose proof (readOnly_extractCharacters JSON_parse b ch reply w) as Hsame.
    by rewrite Hrun in Hsame.
Qed.

(** X21. Analysing a chapter whose reply names, up to case, one stored
    character of the book counts one more mention for that character each
    time it is done: the stored record gets the mention count of before plus
    one and the chapter as last mention, keeps its name and first appearance,
    and no other row changes. *)
Theorem reanalysis_counts_one_more_mention
        (JSON_parse : string -> Completion (option (list ExtractedCharacterData)))
        (b : string) (ch : Z) (text : string) (e : ExtractedCharacterData)
        (c : Character) (w : World) :
  JSText.indexOfChar "{"%char text <> -1 ->
  JSText.lastIndexOfChar "}"%char text + 1 <> 0 ->
  JSON_parse (JSText.substring text (JSText.indexOfChar "{"%char text)
                               (JSText.lastIndexOfChar "}"%char text + 1))
  = Normal (Some [e]) ->
  JS.trim (ex_name e) <> EmptyString ->
  findCharacterByName b (ex_name e) w = (Normal (Some c), w) ->
  exists c' w',
    handleAnalyzeChapter JSON_parse b ch (Normal text) w
    = (Normal (AnalysisComplete [c']), w')
    /\ characters w' !! id c = Some c'
    /\ mentionCount c' = mentionCount c + 1
    /\ lastMentioned c' = ch
    /\ name c' = name c
    /\ firstAppearance c' = firstAppearance c
    /\ forall k, k <> id c -> characters w' !! k = characters w !! k.
Proof.
  intros Hstart Hend Hparse Hname Hfind.
  assert (processCandidates b ch [e] w
          = (Normal [updateExistingCharacter c e ch], w)) as Hrun.
  { simpl. unfold bind at 1. unfold processCandidate.
    rewrite trim_empty_name, bool_decide_eq_false_2 by done.
    unfold bind, getCharactersForBook, Table.whereBookId. cbv beta iota.
    rewrite Hfind. reflexivity. }
  pose proof (processRelationships_fields [updateExistingCharacter c e ch] [e] ch)
    as Hframe.
  destruct (processRelationships [updateExistingCharacter c e ch] [e] ch)
    as [|c' rest] eqn:Hrel; [by apply Forall2_nil_inv_r in Hframe|].
  apply Forall2_cons_1 in Hframe as [Hc' Hrest].
  apply Forall2_nil_inv_l in Hrest as ->.
  assert (bookId c = b) as Hb.
  { by apply findCharacterByName_book in Hfind as [_ Hb]; apply Hb. }
  exists c', (setCharacters w (<[id c' := withBookId c' b]> (characters w))).
  split.
  { unfold handleAnalyzeChapter, extractCharacters, processGeminiResponse,
      tryCatch, bind, liftC, throw.
    destruct (Z.eqb_spec (JSText.indexOfChar "{"%char text) (-1)) as [?|_]; [done|].
    destruct (Z.eqb_spec (JSText.lastIndexOfChar "}"%char text + 1) 0) as [?|_];
      [done|].
    simpl. rewrite Hparse, Hrun. unfold ret. rewrite Hrel. reflexivity. }
  rewrite characters_setCharacters.
  assert (id c' = id c) as Hid by (by rewrite Hc').
  assert (withBookId c' b = c') as ->.
  { rewrite <- Hb. rewrite Hc' at 2. simpl. rewrite <- (withBookId_same c') at 2.
    by rewrite Hc'. }
  rewrite Hid. split; [apply lookup_insert_eq|].
  rewrite Hc'. simpl. repeat split.
  intros k Hk. by rewrite lookup_insert_ne.
Qed.

Lemma reanalysis_counts_one_more_mention_witness :
  exists c' w',
    handleAnalyzeChapter (fun _ => Normal (Some [candidate "ALICE"]))
                         "book1" 5 (Normal "{...}") sampleWorld
    = (Normal (AnalysisComplete [c']), w')
    /\ characters w' !! id alice = Some c'
    /\ mentionCount c' = mentionCount alice + 1
    /\ lastMentioned c' = 5
    /\ name c' = name alice
    /\ firstAppearance c' = firstAppearance alice
    /\ forall k, k <> id alice -> characters w' !! k = characters sampleWorld !! k.
Proof.
  apply (reanalysis_counts_one_more_mention
           (fun _ => Normal (Some [candidate "ALICE"])) "book1" 5 "{...}"
           (candidate "ALICE") alice sampleWorld).
  - discriminate.
  - discriminate.
  - reflexivity.
  - discriminate.
  - vm_compute. reflexivity.
Defined.

(** ** Chapter detection *)

Lemma elem_of_uniqueFrom seen pages x :
  x ∈ uniqueFrom seen pages <-> x ∈ pages /\ x ∉ seen.
Proof.
  revert seen. induction pages as [|p pages IH]; intros seen; simpl.
  - split; [intros H; by apply elem_of_nil in H|intros [H _]; by apply elem_of_nil in H].
  - destruct (decide (p ∈ seen)) as [Hin|Hnot].
    + rewrite bool_decide_eq_true_2 by done. rewrite IH, elem_of_cons.
      split; [intros [??]; auto|]. intros [[-> | ?] ?]; [done|auto].
    + rewrite bool_decide_eq_false_2 by done. rewrite elem_of_cons, IH, !elem_of_cons.
      split.
      * intros [-> |[? Hn]]; [auto|]. split; [auto|]. intros ?. apply Hn. by right.
      * intros [[-> | ?] Hn]; [by left|]. destruct (decide (x = p)) as [-> | ?]; [by left|].
        right. split; [done|]. by intros [? | ?].
Qed.

Lemma insertNumber_Permutation x l : insertNumber x l ≡ₚ x :: l.
Proof.
  induction l as [|y l IH]; simpl; [done|].
  destruct (x <=? y); [done|]. rewrite IH. apply Permutation_swap.
Qed.

Lemma sortNumbers_Permutation l : sortNumbers l ≡ₚ l.
Proof.
  induction l as [|x l IH]; [done|].
  unfold sortNumbers in *. simpl. by rewrite insertNumber_Permutation, IH.
Qed.

Lemma insertNumber_sorted x l :
  StronglySorted Z.le l -> StronglySorted Z.le (insertNumber x l).
Proof.
  induction 1 as [|y l Hl IH Hy]; simpl.
  - repeat constructor.
  - destruct (Z.leb_spec x y) as [Hle|Hgt].
    + constructor; [by constructor|]. constructor; [done|].
      eapply Forall_impl; [exact Hy|]. simpl. intros; lia.
    + constructor; [done|].
      rewrite insertNumber_Permutation. constructor; [lia|done].
Qed.

Lemma sortNumbers_sorted l : StronglySorted Z.le (sortNumbers l).
Proof.
  induction l as [|x l IH]; [constructor|].
  unfold sortNumbers in *. simpl. by apply insertNumber_sorted.
Qed.

Lemma keepSpaced_step acc x :
  StronglySorted (fun a b => 3 < b - a) acc ->
  StronglySorted (fun a b => 3 < b - a) (keepSpaced acc x)
  /\ acc `prefix_of` keepSpaced acc x
  /\ (forall p, p ∈ keepSpaced acc x -> p ∈ acc \/ p = x)
  /\ (acc = [] -> keepSpaced acc x = [x]).
Proof.
  intros Hs. unfold keepSpaced.
  destruct (last acc) as [lastKept|] eqn:Hlast.
  - destruct (Z.ltb_spec 3 (x - lastKept)) as [Hgap|_].
    + split; [|split; [by apply prefix_app_r|split]].
      * apply last_Some in Hlast as [init ->].
        apply StronglySorted_app_2; [|done|repeat constructor].
        intros a b Ha ->%list_elem_of_singleton.
        apply elem_of_app in Ha as [Ha| ->%list_elem_of_singleton]; [|done].
        pose proof (StronglySorted_app_1_elem_of _ _ _ a lastKept Hs Ha) as Hlt.
        specialize (Hlt ltac:(apply list_elem_of_here)). simpl in Hlt. lia.
      * intros p [? | ->%list_elem_of_singleton]%elem_of_app; auto.
      * intros ->. done.
    + split; [done|]. split; [done|]. split; [auto|]. intros ->. done.
  - apply last_None in Hlast as ->. simpl.
    split; [repeat constructor|]. split; [apply prefix_nil|].
    split; [|done]. intros p ->%list_elem_of_singleton. auto.
Qed.

Lemma foldl_keepSpaced acc l :
  StronglySorted (fun a b => 3 < b - a) acc ->
  StronglySorted (fun a b => 3 < b - a) (foldl keepSpaced acc l)
  /\ acc `prefix_of` foldl keepSpaced acc l
  /\ (forall p, p ∈ foldl keepSpaced acc l -> p ∈ acc \/ p ∈ l).
Proof.
  revert acc. induction l as [|x l IH]; intros acc Hs; simpl.
  - split; [done|]. split; [done|]. auto.
  - destruct (keepSpaced_step acc x Hs) as (Hs' & Hpre & Hin & _).
    destruct (IH _ Hs') as (Hs'' & Hpre' & Hin').
    split; [done|]. split; [by etrans|].
    intros p [Hp|Hp]%Hin'; [|right; by apply list_elem_of_further].
    apply Hin in Hp as [? | ->]; [by left|right; apply list_elem_of_here].
Qed.

Lemma sortNumbers_uniqueFrom_elem pages p :
  p ∈ sortNumbers (uniqueFrom [] pages) <-> p ∈ pages.
Proof.
  rewrite sortNumbers_Permutation, elem_of_uniqueFrom.
  split; [by intros [? _]|]. intros ?. split; [done|apply not_elem_of_nil].
Qed.

Lemma deduplicateChapterPages_kept pages :
  (forall p, p ∈ deduplicateChapterPages pages -> p ∈ pages)
  /\ StronglySorted (fun a b => 3 < b - a) (deduplicateChapterPages pages).
Proof.
  unfold deduplicateChapterPages.
  destruct (foldl_keepSpaced [] (sortNumbers (uniqueFrom [] pages)))
    as (Hs & _ & Hin); [constructor|].
  split; [|done].
  intros p [Hp|Hp]%Hin;
    [by apply elem_of_nil in Hp|by apply sortNumbers_uniqueFrom_elem].
Qed.

(** X22. The pages kept by [deduplicateChapterPages] are pages of its input,
    in ascending order and more than three pages apart from each other; the
    smallest page of a non-empty input is always kept, as the first one. *)
Theorem deduplicateChapterPages_spec (pages : list Z) :
  let kept := deduplicateChapterPages pages in
  (forall p, p ∈ kept -> p ∈ pages)
  /\ StronglySorted (fun a b => 3 < b - a) kept
  /\ (pages <> [] ->
      exists first rest, kept = first :: rest /\ forall p, p ∈ pages -> first <= p).
Proof.
  simpl. destruct (deduplicateChapterPages_kept pages) as [Hin Hs].
  split; [done|]. split; [done|]. clear Hin Hs.
  unfold deduplicateChapterPages.
  pose proof (sortNumbers_uniqueFrom_elem pages) as Helem.
  intros Hne. pose proof (sortNumbers_sorted (uniqueFrom [] pages)) as Hsorted.
  destruct (sortNumbers (uniqueFrom [] pages)) as [|m rest] eqn:Hu.
  { destruct pages as [|p pages]; [done|].
    assert (p ∈ @nil Z) as H by (apply Helem, list_elem_of_here).
    by apply elem_of_nil in H. }
  simpl. destruct (keepSpaced_step [] m) as (Hs1 & _ & _ & Hone); [constructor|].
  rewrite Hone by done.
  destruct (foldl_keepSpaced [m] rest) as (_ & [tail ->] & _);
    [repeat constructor|].
  exists m, tail. split; [done|].
  intros p [-> |Hp]%Helem%elem_of_cons; [lia|].
  apply StronglySorted_inv in Hsorted as [_ Hm].
  rewrite Forall_forall in Hm. by apply Hm.
Qed.

Lemma deduplicateChapterPages_spec_witness :
  exists first rest,
    deduplicateChapterPages [12; 3; 5; 3; 40] = first :: rest
    /\ forall p, p ∈ [12; 3; 5; 3; 40] -> first <= p.
Proof.
  apply (deduplicateChapterPages_spec [12; 3; 5; 3; 40]). discriminate.
Defined.

Lemma boundariesFrom_lookup i pages total j b :
  boundariesFrom i pages total !! j = Some b ->
  boundary_chapter b = i + Z.of_nat j + 1
  /\ pages !! j = Some (startPage b)
  /\ endPage b = match pages !! S j with
                 | Some next => next - 1
                 | None => total
                 end.
Proof.
  revert i j. induction pages as [|p pages IH]; intros i j; simpl; [done|].
  destruct j as [|j]; simpl.
  - intros [= <-]. simpl. split; [lia|]. split; [done|]. by destruct pages.
  - intros Hb. apply IH in Hb as (Hc & Hs & He). split; [lia|done].
Qed.

Lemma boundariesFrom_length i pages total :
  length (boundariesFrom i pages total) = length pages.
Proof.
  revert i. induction pages as [|p pages IH]; intros i; simpl; [done|].
  by rewrite IH.
Qed.

Lemma boundariesFrom_covers pages total :
  coversPages total (boundariesFrom 0 (1 :: pages) total).
Proof.
  split; [|split; [|split]].
  - simpl. eauto.
  - intros j b Hb. apply boundariesFrom_lookup in Hb as (Hc & _). lia.
  - intros j b b' Hb Hb'.
    apply boundariesFrom_lookup in Hb as (_ & _ & He).
    apply boundariesFrom_lookup in Hb' as (_ & Hs & _).
    rewrite Hs in He. lia.
  - destruct (last (boundariesFrom 0 (1 :: pages) total)) as [b|] eqn:Hlast.
    + exists b. split; [done|].
      rewrite last_lookup, boundariesFrom_length in Hlast.
      apply boundariesFrom_lookup in Hlast as (_ & _ & He).
      rewrite He. simpl.
      rewrite lookup_ge_None_2; [done|]. simpl. lia.
    + by apply last_None in Hlast.
Qed.

Lemma createChapterBoundaries_unfold pages total :
  exists pages',
    createChapterBoundaries pages total = boundariesFrom 0 (1 :: pages') total
    /\ (1 :: pages' = pages \/ (1 :: pages' = 1 :: pages /\ head pages <> Some 1)).
Proof.
  unfold createChapterBoundaries. destruct pages as [|p pages].
  - exists []. split; [done|]. by right.
  - destruct (decide (p = 1)) as [-> |Hne].
    + exists pages. split; [done|]. by left.
    + exists (p :: pages). split.
      * destruct p as [|[]|]; done.
      * right. split; [done|]. simpl. congruence.
Qed.

Lemma createChapterBoundaries_start_pages pages pages' total :
  1 :: pages' = pages \/ (1 :: pages' = 1 :: pages /\ head pages <> Some 1) ->
  StronglySorted Z.lt pages ->
  Forall (fun p => 1 <= p <= total) pages ->
  1 <= total ->
  StronglySorted Z.lt (1 :: pages')
  /\ Forall (fun p => 1 <= p <= total) (1 :: pages').
Proof.
  intros Hshape Hsorted Hrange Htotal.
  destruct Hshape as [<-|[[= ->] Hhead]]; [done|].
  split; [|constructor; [lia|done]].
  constructor; [done|]. destruct pages as [|p pages]; [constructor|].
  apply Forall_cons in Hrange as [Hp _].
  assert (1 < p) by (simpl in Hhead; assert (p <> 1) by congruence; lia).
  constructor; [done|].
  apply StronglySorted_inv in Hsorted as [_ Hall].
  eapply Forall_impl; [exact Hall|]. simpl. intros; lia.
Qed.

Lemma boundariesFrom_not_empty i pages total :
  StronglySorted Z.lt pages ->
  Forall (fun p => 1 <= p <= total) pages ->
  Forall (fun b => startPage b <= endPage b) (boundariesFrom i pages total).
Proof.
  intros Hs Hr.
  apply Forall_forall. intros b [j Hb]%list_elem_of_lookup.
  apply boundariesFrom_lookup in Hb as (_ & Hstart & Hend). rewrite Hend.
  destruct (pages !! S j) as [next|] eqn:Hnext.
  - assert (startPage b < next); [|lia].
    apply lookup_lt_Some in Hnext as Hlen.
    rewrite <- (take_drop_middle _ _ _ Hnext) in Hs.
    apply (StronglySorted_app_1_elem_of _ _ _ (startPage b) next) in Hs;
      [done| |apply list_elem_of_here].
    apply list_elem_of_lookup. exists j. rewrite lookup_take_lt by lia. done.
  - rewrite Forall_forall in Hr. apply Hr. by eapply list_elem_of_lookup_2.
Qed.

(** X23. The boundaries built from any list of chapter start pages number
    the chapters from 1, start at page 1, leave no gap and no overlap between
    consecutive chapters and end at the last page. When the start pages are
    ascending and lie between 1 and the last page, no chapter is empty. *)
Theorem createChapterBoundaries_spec (pages : list Z) (total : Z) :
  coversPages total (createChapterBoundaries pages total)
  /\ (StronglySorted Z.lt pages ->
      Forall (fun p => 1 <= p <= total) pages ->
      1 <= total ->
      Forall (fun b => startPage b <= endPage b)
             (createChapterBoundaries pages total)).
Proof.
  destruct (createChapterBoundaries_unfold pages total) as (pages' & -> & Hshape).
  split; [apply boundariesFrom_covers|].
  intros Hsorted Hrange Htotal.
  destruct (createChapterBoundaries_start_pages _ _ _ Hshape Hsorted Hrange Htotal)
    as [Hs Hr].
  by apply boundariesFrom_not_empty.
Qed.

Lemma createChapterBoundaries_spec_witness :
  Forall (fun b => startPage b <= endPage b) (createChapterBoundaries [4; 9] 30).
Proof.
  apply (createChapterBoundaries_spec [4; 9] 30).
  - repeat constructor.
  - repeat constructor; discriminate.
  - discriminate.
Defined.

(** X24. Whatever the scans of a document of at least one page find, as long
    as they report pages of the document, [detectChapters] returns chapters
    that are numbered from 1, start at page 1, follow each other without gap
    or overlap, end at the last page, and of which none is empty. *)
Theorem detectChapters_spec (explicitMarkerPages largeFontPages : list Z)
        (total : Z) :
  1 <= total ->
  Forall (fun p => 1 <= p <= total) explicitMarkerPages ->
  Forall (fun p => 1 <= p <= total) largeFontPages ->
  coversPages total (detectChapters explicitMarkerPages largeFontPages total)
  /\ Forall (fun b => startPage b <= endPage b)
            (detectChapters explicitMarkerPages largeFontPages total).
Proof.
  intros Htotal Hexp Hfont.
  assert (forall pages,
             Forall (fun p => 1 <= p <= total) pages ->
             coversPages total
               (createChapterBoundaries (deduplicateChapterPages pages) total)
             /\ Forall (fun b => startPage b <= endPage b)
                  (createChapterBoundaries (deduplicateChapterPages pages) total))
    as Hscan.
  { intros pages Hrange.
    destruct (deduplicateChapterPages_kept pages) as (Hin & Hgap).
    destruct (createChapterBoundaries_unfold (deduplicateChapterPages pages) total)
      as (pages' & -> & Hshape).
    split; [apply boundariesFrom_covers|].
    destruct (createChapterBoundaries_start_pages _ _ total Hshape) as [Hs Hr];
      [| |done|by apply boundariesFrom_not_empty].
    - clear -Hgap. induction Hgap as [|a l _ IH Ha]; constructor; [done|].
      eapply Forall_impl; [exact Ha|]. simpl. intros; lia.
    - apply Forall_forall. intros p Hp. rewrite Forall_forall in Hrange.
      by apply Hrange, Hin. }
  unfold detectChapters.
  destruct (negb _); [by apply Hscan|].
  destruct (negb _); [by apply Hscan|].
  split; [|repeat constructor; simpl; lia].
  split; [simpl; eauto|]. split; [|split].
  - intros [|j] b; simpl; [|done]. intros [= <-]. simpl. lia.
  - intros [|j] b b'; simpl; done.
  - simpl. eauto.
Qed.

Lemma detectChapters_spec_witness :
  coversPages 30 (detectChapters [] [7; 8; 20] 30)
  /\ Forall (fun b => startPage b <= endPage b) (detectChapters [] [7; 8; 20] 30).
Proof.
  apply (detectChapters_spec [] [7; 8; 20] 30).
  - discriminate.
  - constructor.
  - repeat constructor; discriminate.
Defined.

(** ** The graphs *)

Lemma foldr_max_bounds (xs : list Z) :
  1 <= foldr Z.max 1 xs /\ Forall (fun x => x <= foldr Z.max 1 xs) xs.
Proof.
  induction xs as [|x xs [IH1 IH2]]; simpl; [split; [lia|constructor]|].
  split; [lia|]. constructor; [lia|].
  eapply Forall_impl; [exact IH2|]. simpl. intros; lia.
Qed.

(** X25. In the data of the character map every node is a character that has
    appeared by the current chapter, every link joins two nodes of the graph
    and carries an edge established by the current chapter whose target id is
    the id of its target node (an edge to a character that is not shown, or
    not stored any more, gives no link), and [maxMentions] is at least 1 and
    at least the mention count of every node. *)
Theorem prepareGraphData_well_formed (all : list Character) (n : Z) :
  let g := prepareGraphData all n in
  (forall nd, nd ∈ nodes g ->
     node_character nd ∈ all
     /\ firstAppearance (node_character nd) <= n
     /\ node_id nd = id (node_character nd)
     /\ mentionCount (node_character nd) <= maxMentions g)
  /\ (forall l, l ∈ links g ->
        source l ∈ nodes g /\ target l ∈ nodes g
        /\ node_id (target l) = targetCharacterId (relationship l)
        /\ establishedInChapter (relationship l) <= n)
  /\ 1 <= maxMentions g.
Proof.
  simpl. destruct (foldr_max_bounds (map mentionCount (visibleCharacters all n)))
    as [Hone Hmax].
  split; [|split; [|done]].
  - intros nd (c & -> & Hc)%list_elem_of_fmap. simpl.
    rewrite Forall_forall in Hmax.
    specialize (Hmax (mentionCount c) ltac:(by apply list_elem_of_fmap_2)).
    apply list_elem_of_filter in Hc as [Hfirst Hc]. done.
  - intros l (c & Hl & Hc)%list_elem_of_bind.
    apply list_elem_of_bind in Hl as (r & Hl & Hr).
    destruct (decide (establishedInChapter r <= n)) as [Hest|];
      [|by apply elem_of_nil in Hl].
    destruct (nodeMapOf _ !! targetCharacterId r) as [t|] eqn:Ht;
      [|by apply elem_of_nil in Hl].
    destruct (nodeMapOf _ !! id c) as [s|] eqn:Hs; [|by apply elem_of_nil in Hl].
    apply list_elem_of_singleton in Hl as ->. simpl.
    unfold nodeMapOf in Hs, Ht.
    apply nodeMap_foldl_Some in Hs as [[Hs _]|Hs]; [|by rewrite lookup_empty in Hs].
    apply nodeMap_foldl_Some in Ht as [[Ht Hid]|Ht]; [|by rewrite lookup_empty in Ht].
    done.
Qed.

Lemma cytoscape_nodeMap_Some (cs : list Character) (acc : gmap string Character) k c :
  foldl (fun m char => <[id char := char]> m) acc cs !! k = Some c ->
  (c ∈ cs /\ id c = k) \/ acc !! k = Some c.
Proof.
  revert acc. induction cs as [|x cs IH]; intros acc H; simpl in *; [by right|].
  apply IH in H as [[Hin Hk]|H].
  - left. split; [by apply list_elem_of_further|done].
  - apply lookup_insert_Some in H as [[<- <-]|[_ H]]; [|by right].
    left. split; [apply list_elem_of_here|done].
Qed.

Lemma cytoscape_addEdge_invariant (visible : list Character) (n : Z)
      (nodeMap : gmap string Character) c acc r :
  (forall k t, nodeMap !! k = Some t -> t ∈ visible /\ id t = k) ->
  c ∈ visible ->
  (NoDup (Cytoscape.edge_id <$> acc.1)
   /\ forall e, e ∈ acc.1 ->
        Cytoscape.edge_id e ∈ acc.2
        /\ Cytoscape.source e ∈ id <$> visible
        /\ Cytoscape.target e ∈ id <$> visible
        /\ establishedInChapter (Cytoscape.relationship e) <= n) ->
  let acc' := Cytoscape.addEdge nodeMap n c acc r in
  NoDup (Cytoscape.edge_id <$> acc'.1)
  /\ forall e, e ∈ acc'.1 ->
       Cytoscape.edge_id e ∈ acc'.2
       /\ Cytoscape.source e ∈ id <$> visible
       /\ Cytoscape.target e ∈ id <$> visible
       /\ establishedInChapter (Cytoscape.relationship e) <= n.
Proof.
  intros Hmap Hc [Hnd Hall]. destruct acc as [edges processed]. simpl in *.
  unfold Cytoscape.addEdge.
  destruct (decide (establishedInChapter r <= n)) as [Hest|]; [|done].
  destruct (nodeMap !! targetCharacterId r) as [t|] eqn:Ht; [|done].
  destruct (decide (_ ∈ processed)) as [|Hfresh]; [done|]. simpl.
  split.
  - rewrite fmap_app. apply NoDup_app. split; [done|].
    split; [|apply NoDup_singleton].
    intros key (e & -> & He)%list_elem_of_fmap Heq%list_elem_of_singleton.
    simpl in Heq. apply Hfresh. rewrite <- Heq. by apply Hall.
  - intros e [He| ->%list_elem_of_singleton]%elem_of_app.
    + destruct (Hall e He) as (? & ? & ? & ?).
      split; [apply elem_of_union; by left|done].
    + simpl. split; [apply elem_of_union; right; by apply elem_of_singleton|].
      split; [by apply list_elem_of_fmap_2|]. split; [|done].
      destruct (Hmap _ _ Ht) as [Htv <-]. by apply list_elem_of_fmap_2.
Qed.

(** X26. In the data of the Cytoscape graph no two edges have the same id,
    every edge joins the ids of two characters that have appeared by the
    current chapter, and it carries an edge established by that chapter. *)
Theorem cytoscape_edges_well_formed (all : list Character) (n : Z) :
  let g := Cytoscape.prepareGraphData all n in
  NoDup (Cytoscape.edge_id <$> g.2)
  /\ (forall e, e ∈ g.2 ->
        Cytoscape.source e ∈ Cytoscape.node_id <$> g.1
        /\ Cytoscape.target e ∈ Cytoscape.node_id <$> g.1
        /\ establishedInChapter (Cytoscape.relationship e) <= n)
  /\ forall nd, nd ∈ g.1 -> firstAppearance (Cytoscape.character nd) <= n.
Proof.
  simpl. set (visible := filter (fun char => firstAppearance char <= n) all).
  set (nodeMap := foldl (fun m char => <[id char := char]> m) ∅ visible).
  assert (forall k t, nodeMap !! k = Some t -> t ∈ visible /\ id t = k) as Hmap.
  { intros k t Ht. apply cytoscape_nodeMap_Some in Ht as [?|Ht]; [done|].
    by rewrite lookup_empty in Ht. }
  assert (forall cs acc,
             (forall c, c ∈ cs -> c ∈ visible) ->
             (NoDup (Cytoscape.edge_id <$> acc.1)
              /\ forall e, e ∈ acc.1 ->
                   Cytoscape.edge_id e ∈ acc.2
                   /\ Cytoscape.source e ∈ id <$> visible
                   /\ Cytoscape.target e ∈ id <$> visible
                   /\ establishedInChapter (Cytoscape.relationship e) <= n) ->
             let acc' := foldl (fun acc character' =>
                                  foldl (Cytoscape.addEdge nodeMap n character') acc
                                        (relationships character')) acc cs in
             NoDup (Cytoscape.edge_id <$> acc'.1)
             /\ forall e, e ∈ acc'.1 ->
                  Cytoscape.edge_id e ∈ acc'.2
                  /\ Cytoscape.source e ∈ id <$> visible
                  /\ Cytoscape.target e ∈ id <$> visible
                  /\ establishedInChapter (Cytoscape.relationship e) <= n) as Hfold.
  { induction cs as [|c cs IH]; intros acc Hsub Hinv; simpl; [done|].
    apply IH; [intros; by apply Hsub, list_elem_of_further|].
    assert (c ∈ visible) as Hc by apply Hsub, list_elem_of_here.
    clear IH. revert acc Hinv.
    induction (relationships c) as [|r rs IHr]; intros acc Hinv; simpl; [done|].
    apply IHr. by apply cytoscape_addEdge_invariant. }
  destruct (Hfold visible ([], ∅)) as [Hnd Hall]; [done| |].
  { simpl. split; [constructor|]. intros e He. by apply elem_of_nil in He. }
  split; [done|]. split.
  - intros e He. destruct (Hall e He) as (_ & Hs & Ht & Hest).
    rewrite <- list_fmap_compose. done.
  - intros nd (c & -> & Hc)%list_elem_of_fmap. simpl.
    by apply list_elem_of_filter in Hc as [? _].
Qed.

(** ** The tap handler *)

(** X27. A tap on a node never throws, whatever the merge behind it does: it
    always ends with the tapped node and the time of the tap remembered.
    Without the user's confirmation it changes nothing in the table; and once
    a merge has been requested no node is selected any more. *)
Theorem onNodeTap_completes (st : TapState) (node : Character) (time : Z)
        (confirmed : bool) (w : World) :
  exists st' w',
    onNodeTap st node time confirmed w = (Normal st', w')
    /\ lastTappedNode st' = Some node
    /\ lastTapTime st' = time
    /\ (confirmed = false -> w' = w)
    /\ (w' <> w -> selectedForMerge st' = None).
Proof.
  unfold onNodeTap, bind.
  destruct (_ && _).
  { destruct (sameNode _ _); eexists _, _; (split; [reflexivity|]); simpl;
      repeat split; done. }
  destruct (selectedForMerge st) as [sel|] eqn:Hsel;
    [|eexists _, _; (split; [reflexivity|]); simpl; repeat split; done].
  destruct (negb _);
    [|eexists _, _; (split; [reflexivity|]); simpl; repeat split; done].
  unfold handleCharacterMerge, tryCatch.
  destruct confirmed.
  - destruct (mergeCharacters (id sel) (id node) w) as [[[]|e] w1];
      eexists _, _; (split; [reflexivity|]); simpl; repeat split; done.
  - eexists _, _. split; [reflexivity|]. simpl. repeat split; done.
Qed.

(** ** Further properties of the normalizer and of the matching rules *)

(** X28. A normalised name is a sequence of tokens of at least two code
    units without white space, joined by single spaces: trimming leaves it
    unchanged, and splitting a non-empty one at white space gives its tokens
    back. *)
Theorem normalizeCharacterName_shape (x : string) :
  exists parts,
    normalizeCharacterName x = JS.joinSpace parts
    /\ Forall (fun p => 1 < JS.len p /\ wsFree p = true) parts
    /\ JS.trim (normalizeCharacterName x) = normalizeCharacterName x
    /\ (parts <> [] -> JS.splitWs (normalizeCharacterName x) = parts).
Proof.
  destruct (normalize_parts x) as (parts & Hy & Htok & Hlen).
  exists parts. rewrite Hy. split; [done|]. split.
  - rewrite Forall_forall in Htok, Hlen. apply Forall_forall.
    intros p Hp. split; [by apply Hlen|by apply Htok].
  - split.
    + unfold JS.trim. by rewrite trimStart_joinSpace, trimEnd_joinSpace.
    + intros Hne. by apply splitWs_joinSpace.
Qed.

Lemma normalize_single_code_unit (a : ascii) :
  normalizeCharacterName (String a EmptyString) = EmptyString.
Proof. destruct a as [[] [] [] [] [] [] [] []]; reflexivity. Qed.

(** X29. Names of a single code unit all have the empty normal form, so such
    a candidate matches the first character of the book whose name is a
    single code unit, whatever the two code units are. *)
Theorem single_code_unit_names_match (b : string) (l : list Character) c
        (a1 a2 : ascii) :
  head (filter (fun x => bookId x = b) l) = Some c ->
  name c = String a1 EmptyString ->
  findSimilarCharacterNames b (String a2 EmptyString) l = Normal (Some c).
Proof.
  intros Hhead Hname. unfold findSimilarCharacterNames.
  rewrite findSimilarLoop_filter.
  destruct (filter _ l) as [|x rest] eqn:Hf; [done|]. injection Hhead as ->.
  assert (bookId c = b) as Hb.
  { assert (c ∈ filter (fun x => bookId x = b) l) as Hin
      by (rewrite Hf; apply list_elem_of_here).
    by apply list_elem_of_filter in Hin as [? _]. }
  simpl. rewrite (proj2 (String.eqb_eq _ _) Hb). simpl.
  unfold similarTo. rewrite Hname, !normalize_single_code_unit. reflexivity.
Qed.

Lemma single_code_unit_names_match_witness :
  findSimilarCharacterNames "book1" "Q" [sampleCharacter "k" "book1" "K" []]
  = Normal (Some (sampleCharacter "k" "book1" "K" [])).
Proof.
  apply (single_code_unit_names_match "book1"
           [sampleCharacter "k" "book1" "K" []]
           (sampleCharacter "k" "book1" "K" []) "K"%char "Q"%char); reflexivity.
Defined.

Lemma includes_In l x : includes l x = true <-> In x l.
Proof.
  unfold includes. rewrite existsb_exists. split.
  - intros (y & Hy & Heq). apply String.eqb_eq in Heq. by subst.
  - intros Hx. exists x. split; [done|apply String.eqb_refl].
Qed.

Lemma ownProperty_In table key v :
  ownProperty table key = Some v -> In (key, v) table.
Proof.
  induction table as [|[k v'] table IH]; simpl; [done|].
  destruct (String.eqb_spec k key) as [->|_].
  - intros [= ->]. by left.
  - intros H. right. by apply IH.
Qed.

Lemma nicknames_are_not_inherited_keys :
  forallb (fun entry =>
             forallb (fun nick =>
                        negb (includes objectPrototypeKeys nick)
                        || match ownProperty commonNicknames nick with
                           | Some _ => true
                           | None => false
                           end)
                     entry.2)
          commonNicknames = true.
Proof. vm_compute. reflexivity. Qed.

Lemma nicknamesInclude_true_no_throw key x y :
  nicknamesInclude key x = Normal true ->
  exists r, nicknamesInclude x y = Normal r.
Proof.
  unfold nicknamesInclude at 1.
  destruct (ownProperty commonNicknames key) as [v|] eqn:Hown;
    [|destruct (includes _ key); done].
  intros [= Hin]. apply includes_In in Hin. apply ownProperty_In in Hown.
  pose proof nicknames_are_not_inherited_keys as Hall.
  rewrite forallb_forall in Hall. specialize (Hall _ Hown).
  cbn [snd] in Hall. rewrite forallb_forall in Hall. specialize (Hall _ Hin).
  cbv beta in Hall. unfold nicknamesInclude.
  destruct (ownProperty commonNicknames x); [eauto|].
  rewrite orb_false_r in Hall. apply negb_true_iff in Hall. rewrite Hall. eauto.
Qed.

Lemma nicknamesInclude_throw key x e :
  nicknamesInclude key x = Throw e ->
  forall y, nicknamesInclude key y = Throw e.
Proof.
  unfold nicknamesInclude. destruct (ownProperty commonNicknames key); [done|].
  by destruct (includes objectPrototypeKeys key).
Qed.

Lemma checkNickname_either_way a b :
  (n1 <-- checkNickname a b ;;
   if n1 then Normal true else checkNickname b a)%C
  = (n1 <-- checkNickname b a ;;
     if n1 then Normal true else checkNickname a b)%C.
Proof.
  unfold checkNickname, bindC.
  destruct (nicknamesInclude (JS.toLowerCase a) (JS.toLowerCase b))
    as [[]|e] eqn:X;
    destruct (nicknamesInclude (JS.toLowerCase b) (JS.toLowerCase a))
      as [[]|e'] eqn:Y; try reflexivity.
  all: try (destruct (nicknamesInclude_true_no_throw _ _ (JS.toLowerCase a) X)
              as [r Hr]; congruence).
  all: try (destruct (nicknamesInclude_true_no_throw _ _ (JS.toLowerCase b) Y)
              as [r Hr]; congruence).
  all: try (destruct (_ && _), (_ && _); reflexivity).
  unfold nicknamesInclude in X, Y.
  destruct (ownProperty _ (JS.toLowerCase a)); [done|].
  destruct (ownProperty _ (JS.toLowerCase b)); [done|].
  destruct (includes _ (JS.toLowerCase a)); [|done].
  destruct (includes _ (JS.toLowerCase b)); [|done]. congruence.
Qed.

Lemma checkNickname_either_way_then {B} a b (k : bool -> Completion B) :
  bindC (checkNickname a b)
        (fun n1 => bindC (if n1 then Normal true else checkNickname b a) k)
  = bindC (checkNickname b a)
          (fun n1 => bindC (if n1 then Normal true else checkNickname a b) k).
Proof.
  pose proof (checkNickname_either_way a b) as H. unfold bindC in *.
  destruct (checkNickname a b) as [[]|e1], (checkNickname b a) as [[]|e2];
    simpl in *; congruence.
Qed.

(** The body of the resolver's loop gives the same for a candidate named as
    [c1] against [c2] as for a candidate named as [c2] against [c1]. *)
Lemma similarTo_symmetric (c1 c2 : Character) :
  similarTo (JS.toLowerCase (normalizeCharacterName (name c1)))
            (JS.splitSpace (JS.toLowerCase (normalizeCharacterName (name c1))))
            c2
  = similarTo (JS.toLowerCase (normalizeCharacterName (name c2)))
              (JS.splitSpace (JS.toLowerCase (normalizeCharacterName (name c2))))
              c1.
Proof.
  unfold similarTo.
  set (n1 := JS.toLowerCase (normalizeCharacterName (name c1))).
  set (n2 := JS.toLowerCase (normalizeCharacterName (name c2))).
  set (p1 := JS.splitSpace n1). set (p2 := JS.splitSpace n2).
  rewrite (String.eqb_sym n2 n1).
  destruct (String.eqb n1 n2); [reflexivity|].
  rewrite (String.eqb_sym (lastPart p2) (lastPart p1)).
  rewrite (checkNickname_either_way_then (firstPart p2) (firstPart p1)).
  assert (optionAsciiEqb (JS.charAt0 (firstPart p2)) (JS.charAt0 (firstPart p1))
          = optionAsciiEqb (JS.charAt0 (firstPart p1)) (JS.charAt0 (firstPart p2)))
    as ->.
  { destruct (JS.charAt0 (firstPart p1)), (JS.charAt0 (firstPart p2)); simpl;
      try done. apply Ascii.eqb_sym. }
  rewrite (andb_comm (1 <? Z.of_nat (length p2)) (1 <? Z.of_nat (length p1))).
  rewrite (andb_comm (1 <=? Z.of_nat (length p2)) (1 <=? Z.of_nat (length p1))).
  destruct (String.eqb_spec (lastPart p1) (lastPart p2)) as [Hlast|Hlast];
    [rewrite Hlast|rewrite !andb_false_r; simpl];
    repeat match goal with
           | |- context [if ?b then _ else _] => destruct b; try reflexivity
           end.
Qed.


